(** * short-video-maker: the image cache, its cache-aside wrapper and the
    image generator

    A shallow embedding of
    - [src/short-creator/libraries/FileCache.ts] (class [FileCache]),
    - [src/short-creator/libraries/CachedOpenAIImages.ts]
      (class [CachedOpenAIImagesAPI]), and
    - [src/short-creator/libraries/OpenAIImages.ts] ([getPrompt] and
      class [OpenAIImagesAPI]),
    followed by the properties established on it.

    Conventions.
    - A JavaScript string is a Rocq [string], read as its UTF-8 bytes.
    - A JavaScript [Map] is a [gmap]; the disk is a [gmap] from paths to
      file contents.
    - Timestamps, durations and pixel counts are integers ([Z]).
    - Methods are computations in a state-and-exception monad [M]; the
      state holds the [FileCache] object, the disk, the clock, the log
      and the trace of requests sent to the image generator. *)

From Stdlib Require Import ZArith QArith Strings.Ascii Strings.String Strings.Byte.
From Stdlib Require Import DecimalString.
From stdpp Require Import base option list gmap strings fin_maps.

Local Open Scope string_scope.
Local Open Scope Z_scope.

(** ** Strings *)

Module Str.

(** [Array.prototype.join] on an array of strings. *)
Definition join (sep : string) (parts : list string) : string :=
  String.concat sep parts.

Fixpoint filter (keep : ascii → bool) (s : string) : string :=
  match s with
  | EmptyString => EmptyString
  | String c r => if keep c then String c (filter keep r) else filter keep r
  end.

Fixpoint map (f : ascii → ascii) (s : string) : string :=
  match s with
  | EmptyString => EmptyString
  | String c r => String (f c) (map f r)
  end.

Fixpoint forallb (p : ascii → bool) (s : string) : bool :=
  match s with
  | EmptyString => true
  | String c r => p c && forallb p r
  end.

Definition code (c : ascii) : N := N_of_ascii c.

Definition between (lo hi : N) (c : ascii) : bool :=
  ((lo <=? code c) && (code c <=? hi))%N.

Definition is_lower (c : ascii) : bool := between 97 122 c.
Definition is_upper (c : ascii) : bool := between 65 90 c.
Definition is_digit (c : ascii) : bool := between 48 57 c.

(** One character of [String.prototype.toLowerCase]; the only letters
    that reach it in this program are ASCII. *)
Definition lower (c : ascii) : ascii :=
  if is_upper c then ascii_of_N (code c + 32) else c.

Definition toLowerCase (s : string) : string := map lower s.

(** [String.prototype.startsWith], returning the rest of the string. *)
Fixpoint strip_prefix (p s : string) : option string :=
  match p, s with
  | EmptyString, _ => Some s
  | String a p', String b s' =>
      if Ascii.eqb a b then strip_prefix p' s' else None
  | String _ _, EmptyString => None
  end.

(** Longest prefix whose characters all satisfy [p], and what follows. *)
Fixpoint span (p : ascii → bool) (s : string) : string * string :=
  match s with
  | EmptyString => (EmptyString, EmptyString)
  | String c r =>
      if p c then let '(a, b) := span p r in (String c a, b)
      else (EmptyString, s)
  end.

Fixpoint last (s : string) : option ascii :=
  match s with
  | EmptyString => None
  | String c EmptyString => Some c
  | String _ r => last r
  end.

End Str.

(** ** Key derivation ([CachedOpenAIImages.ts], line 32) *)

(** Modelled from the spec: the enum [OrientationEnum] of
    [src/types/shorts], which is not among the sources; the spec gives
    its two members and their tags, [portrait] and [landscape]. *)
Inductive OrientationEnum := portrait | landscape.

Definition orientation_tag (o : OrientationEnum) : string :=
  match o with
  | portrait => "portrait"
  | landscape => "landscape"
  end.

#[global] Instance OrientationEnum_eq_dec : EqDecision OrientationEnum.
Proof. solve_decision. Defined.

(** The character class [a-z0-9-] under the flag [i]: without the flag
    [u] a character above 127 never folds onto an ASCII letter, so the
    class is exactly the ASCII letters, the digits and the hyphen. *)
Definition is_key_char (c : ascii) : bool :=
  Str.is_lower c || Str.is_upper c || Str.is_digit c || Ascii.eqb c "-"%char.

(** [.replace(/[^a-z0-9-]/gi, "").toLowerCase()] *)
Definition sanitize (s : string) : string :=
  Str.toLowerCase (Str.filter is_key_char s).

(** [`${searchTerms.join("-")}-${orientation}`
       .replace(/[^a-z0-9-]/gi, "").toLowerCase()] *)
Definition cacheKey (searchTerms : list string) (orientation : OrientationEnum)
  : string :=
  sanitize (Str.join "-" searchTerms +:+ "-" +:+ orientation_tag orientation).

(** ** Data model *)

Module CacheEntry.
(** [interface CacheEntry] *)
Record t := mk {
  id : string;
  filePath : string;
  createdAt : Z;
  ttl : Z;
}.
End CacheEntry.

Module Video.
(** The [Video] of [src/types/shorts], as both providers build it:
    [{ id, url, width, height }]. *)
Record t := mk {
  id : string;
  url : string;
  width : Z;
  height : Z;
}.
End Video.

(** The functions of the Node runtime that the cache calls and that are
    not part of this repository. The properties below hold for every
    implementation of them. *)
Class Platform := {
  (** [crypto.createHash("md5").update(s).digest("hex")] *)
  md5_hex : string → string;
  (** [Buffer.from(s, "base64")] *)
  base64_decode : string → list byte;
  (** [buf.toString("base64")] *)
  base64_encode : list byte → string;
  (** [path.join(dir, name)] *)
  path_join : string → string → string;
  (** the bytes [fs.writeJsonSync] writes for
      [Object.fromEntries(index)] with [{ spaces: 2 }] *)
  json_stringify : gmap string CacheEntry.t → list byte;
}.

(** *** The log *)

Inductive Level := debug | error.

Inductive Field :=
| FString (s : string)
| FNumber (n : Z)
| FStrings (l : list string).

Record LogRecord := mkLog {
  level : Level;
  fields : list (string * Field);
  msg : string;
}.

(** *** The generator *)

(** The arguments of one call of [OpenAIImagesAPI.findVideo]. *)
Record Request := mkRequest {
  searchTerms : list string;
  minDurationSeconds : Q;
  excludeIds : list string;
  orientation : OrientationEnum;
}.

Definition Error := string.

Inductive Result (A : Type) :=
| Ok (a : A)
| Throw (e : Error).
Arguments Ok {A} a.
Arguments Throw {A} e.

(** The generator is a network call: its answer is external. It is given
    as a function of the number of requests made before and of the
    request; it answers with a [Video] or raises. *)
Definition OpenAIImagesAPI := nat → Request → Result Video.t.

(** *** The state *)

(** The fields of a [FileCache] object: [cacheDir], [indexPath],
    [defaultTTL] (a constructor parameter property) and [index]. *)
Record FileCacheFields := mkFileCache {
  cacheDir : string;
  indexPath : string;
  defaultTTL : Z;
  index : gmap string CacheEntry.t;
}.

Record State := mkState {
  (** the [FileCache] object ([this], or [this.cache] in the wrapper) *)
  cache : FileCacheFields;
  (** the files on disk, by path *)
  disk : gmap string (list byte);
  (** what the successive calls of [Date.now()] return *)
  clock : nat → Z;
  (** how many times [Date.now()] was called *)
  ticks : nat;
  (** the records handed to [logger], the latest first *)
  logs : list LogRecord;
  (** the requests sent to the generator, the latest first *)
  requests : list Request;
}.

Definition with_index (ix : gmap string CacheEntry.t) (s : State) : State :=
  mkState
    (mkFileCache (cacheDir (cache s)) (indexPath (cache s))
       (defaultTTL (cache s)) ix)
    (disk s) (clock s) (ticks s) (logs s) (requests s).

Definition with_disk (d : gmap string (list byte)) (s : State) : State :=
  mkState (cache s) d (clock s) (ticks s) (logs s) (requests s).

Definition with_ticks (n : nat) (s : State) : State :=
  mkState (cache s) (disk s) (clock s) n (logs s) (requests s).

Definition with_logs (l : list LogRecord) (s : State) : State :=
  mkState (cache s) (disk s) (clock s) (ticks s) l (requests s).

Definition with_requests (l : list Request) (s : State) : State :=
  mkState (cache s) (disk s) (clock s) (ticks s) (logs s) l.

(** ** The monad of methods: state, and exceptions that keep the state *)

Definition M (A : Type) : Type := State → Result A * State.

Definition ret {A} (a : A) : M A := fun s => (Ok a, s).

Definition bind {A B} (c : M A) (k : A → M B) : M B :=
  fun s =>
    match c s with
    | (Ok a, s') => k a s'
    | (Throw e, s') => (Throw e, s')
    end.

Definition throw {A} (e : Error) : M A := fun s => (Throw e, s).

(** [try { body } catch (error) { handler }] *)
Definition try_catch {A} (body : M A) (handler : Error → M A) : M A :=
  fun s =>
    match body s with
    | (Ok a, s') => (Ok a, s')
    | (Throw e, s') => handler e s'
    end.

Notation "'let*' x ':=' c 'in' k" := (bind c (fun x => k))
  (at level 10, x name, c at level 100, k at level 200).
Notation "c '>>' k" := (bind c (fun _ => k))
  (at level 100, k at level 200, right associativity).

(** [for (const x of l) { acc = body(x, acc) }] *)
Fixpoint for_of {A B} (l : list A) (body : A → B → M B) (acc : B) : M B :=
  match l with
  | [] => ret acc
  | x :: r => let* acc' := body x acc in for_of r body acc'
  end.

Definition this : M FileCacheFields := fun s => (Ok (cache s), s).

(** [Date.now()] *)
Definition Date_now : M Z :=
  fun s => (Ok (clock s (ticks s)), with_ticks (S (ticks s)) s).

Module logger.
Definition log (lv : Level) (fs : list (string * Field)) (m : string)
  : M unit :=
  fun s => (Ok tt, with_logs (mkLog lv fs m :: logs s) s).

Definition debug := log debug.

(** [logger.error(error, msg)] *)
Definition error (e : Error) (m : string) : M unit :=
  log error [("err", FString e)] m.
End logger.

(** ** The file system ([fs-extra]) *)

Module fs.

Definition existsSync (p : string) : M bool :=
  fun s => (Ok (bool_decide (is_Some (disk s !! p))), s).

Definition writeFileSync (p : string) (data : list byte) : M unit :=
  fun s => (Ok tt, with_disk (<[p := data]> (disk s)) s).

Definition readFileSync (p : string) : M (list byte) :=
  fun s =>
    match disk s !! p with
    | Some data => (Ok data, s)
    | None => (Throw "ENOENT", s)
    end.

Definition unlinkSync (p : string) : M unit :=
  fun s =>
    match disk s !! p with
    | Some _ => (Ok tt, with_disk (delete p (disk s)) s)
    | None => (Throw "ENOENT", s)
    end.

(** [fs.statSync(p).size] *)
Definition statSync_size (p : string) : M Z :=
  fun s =>
    match disk s !! p with
    | Some data => (Ok (Z.of_nat (length data)), s)
    | None => (Throw "ENOENT", s)
    end.

Definition writeJsonSync `{Platform} (p : string)
    (data : gmap string CacheEntry.t) : M unit :=
  writeFileSync p (json_stringify data).

End fs.

(** ** [class FileCache] *)

Module Stats.
(** The result of [getStats]. *)
Record t := mk {
  size : Z;
  totalSizeBytes : Z;
}.
End Stats.

(** [\w] *)
Definition is_word_char (c : ascii) : bool :=
  Str.is_lower c || Str.is_upper c || Str.is_digit c || Ascii.eqb c "_"%char.

(** Whether a line terminator occurs in [s]: [\n], [\r], U+2028 or
    U+2029 (the last two are [E2 80 A8] and [E2 80 A9] in UTF-8). These
    are the characters that [.] does not match. *)
Fixpoint has_line_terminator (s : string) : bool :=
  match s with
  | EmptyString => false
  | String c r =>
      Ascii.eqb c "010"%char || Ascii.eqb c "013"%char
      || (Ascii.eqb c "226"%char
          && match r with
             | String c1 (String c2 _) =>
                 Ascii.eqb c1 "128"%char
                 && (Ascii.eqb c2 "168"%char || Ascii.eqb c2 "169"%char)
             | _ => false
             end)
      || has_line_terminator r
  end.

(** [dataUrl.match(/^data:image\/(\w+);base64,(.+)$/)]: the two groups,
    or [None] for [null]. The run of [\w] is followed by [;], which is
    not a word character, so only the longest run can match. *)
Definition matchDataUrl (dataUrl : string) : option (string * string) :=
  match Str.strip_prefix "data:image/" dataUrl with
  | None => None
  | Some r =>
      let '(format, r') := Str.span is_word_char r in
      if String.eqb format "" then None
      else
        match Str.strip_prefix ";base64," r' with
        | None => None
        | Some base64Data =>
            if String.eqb base64Data "" || has_line_terminator base64Data
            then None
            else Some (format, base64Data)
        end
  end.

(** [x || d] on an optional number: [undefined] and [0] are falsy. *)
Definition number_or (x : option Z) (d : Z) : Z :=
  match x with
  | Some t => if t =? 0 then d else t
  | None => d
  end.

(** A [string | null] as a condition: [null] and [""] are falsy. *)
Definition truthy (x : option string) : option string :=
  match x with
  | Some s => if String.eqb s "" then None else Some s
  | None => None
  end.

(** [now - entry.createdAt > entry.ttl] *)
Definition expired (now : Z) (entry : CacheEntry.t) : bool :=
  now - CacheEntry.createdAt entry >? CacheEntry.ttl entry.

Module FileCache.
Section Methods.
Context `{Platform}.

(** [this.index.delete(id)] *)
Definition index_delete (id : string) : M unit :=
  fun s => (Ok tt, with_index (base.delete id (index (cache s))) s).

(** [this.index.set(id, entry)] *)
Definition index_set (id : string) (entry : CacheEntry.t) : M unit :=
  fun s => (Ok tt, with_index (<[id := entry]> (index (cache s))) s).

Definition saveIndex : M unit :=
  try_catch
    (let* c := this in
     fs.writeJsonSync (indexPath c) (index c))
    (fun e => logger.error e "Failed to save cache index").

Definition delete (id : string) : M unit :=
  let* c := this in
  match index c !! id with
  | Some entry =>
      try_catch
        (let* present := fs.existsSync (CacheEntry.filePath entry) in
         if present then fs.unlinkSync (CacheEntry.filePath entry)
         else ret tt)
        (fun e => logger.error e "Failed to delete cached file") >>
      index_delete id >>
      saveIndex
  | None => ret tt
  end.

Definition has (id : string) : M bool :=
  let* c := this in
  match index c !! id with
  | None => ret false
  | Some entry =>
      let* now := Date_now in
      if expired now entry then
        delete id >> ret false
      else
        let* present := fs.existsSync (CacheEntry.filePath entry) in
        if negb present then
          index_delete id >> saveIndex >> ret false
        else ret true
  end.

Definition get (id : string) : M (option string) :=
  let* live := has id in
  if negb live then ret None
  else
    let* c := this in
    match index c !! id with
    | Some entry => ret (Some (CacheEntry.filePath entry))
    | None => throw "TypeError"
    end.

Definition getFileUrl (id : string) : M (option string) :=
  let* filePath := get id in
  match truthy filePath with
  | None => ret None
  | Some p => ret (Some ("file://" +:+ p))
  end.

Definition getDataUrl (id : string) : M (option string) :=
  let* filePath := get id in
  match truthy filePath with
  | None => ret None
  | Some p =>
      try_catch
        (let* buf := fs.readFileSync p in
         ret (Some ("data:image/png;base64," +:+ base64_encode buf)))
        (fun e => logger.error e "Failed to read cached file" >> ret None)
  end.

Definition setFromDataUrl (id dataUrl : string) (ttl : option Z)
  : M string :=
  match matchDataUrl dataUrl with
  | None => throw "Invalid data URL format"
  | Some (format, base64Data) =>
      let buffer := base64_decode base64Data in
      let hash := md5_hex id in
      let filename := hash +:+ "." +:+ format in
      let* c := this in
      let filePath := path_join (cacheDir c) filename in
      fs.writeFileSync filePath buffer >>
      let* now := Date_now in
      let entry :=
        CacheEntry.mk id filePath now (number_or ttl (defaultTTL c)) in
      index_set id entry >>
      saveIndex >>
      logger.debug [("id", FString id); ("filePath", FString filePath)]
        "Cached image to filesystem" >>
      ret filePath
  end.

(** The loop visits the entries of [this.index]; an iteration removes
    at most the entry it is visiting, so the entries visited are those
    present when the loop starts. *)
Definition cleanup : M unit :=
  let* now := Date_now in
  let* c := this in
  let* deletedCount :=
    for_of (map_to_list (index c))
      (fun '(id, entry) deletedCount =>
         if expired now entry then
           delete id >> ret (deletedCount + 1)
         else ret deletedCount)
      0 in
  logger.debug [("deletedCount", FNumber deletedCount)]
    "Cleaned up expired cache entries".

Definition clear : M unit :=
  let* c := this in
  for_of (map_to_list (index c)) (fun '(id, _) _ => delete id) tt >>
  logger.debug [] "Cleared all cache entries".

Definition getStats : M Stats.t :=
  let* c := this in
  let* totalSize :=
    for_of (map_to_list (index c))
      (fun '(_, entry) totalSize =>
         try_catch
           (let* present := fs.existsSync (CacheEntry.filePath entry) in
            if present then
              let* size := fs.statSync_size (CacheEntry.filePath entry) in
              ret (totalSize + size)
            else ret totalSize)
           (fun _ => ret totalSize))
      0 in
  let* c' := this in
  ret (Stats.mk (Z.of_nat (size (index c'))) totalSize).

End Methods.
End FileCache.

(** ** [class CachedOpenAIImagesAPI] *)

Module CachedOpenAIImagesAPI.
Section Methods.
Context `{Platform}.

(** [await this.api.findVideo(...)] *)
Definition api_findVideo (api : OpenAIImagesAPI) (req : Request)
  : M Video.t :=
  fun s => (api (length (requests s)) req,
            with_requests (req :: requests s) s).

Definition findVideo (api : OpenAIImagesAPI)
    (searchTerms : list string) (minDurationSeconds : Q)
    (excludeIds : list string) (orientation : OrientationEnum)
  : M Video.t :=
  let cacheKey := cacheKey searchTerms orientation in
  let* cachedUrl := FileCache.getFileUrl cacheKey in
  match truthy cachedUrl with
  | Some cachedUrl =>
      logger.debug [("cacheKey", FString cacheKey);
                    ("url", FString cachedUrl)] "Using cached image" >>
      let width := if decide (orientation = portrait) then 1080 else 1920 in
      let height := if decide (orientation = portrait) then 1920 else 1080 in
      ret (Video.mk cacheKey cachedUrl width height)
  | None =>
      logger.debug [("cacheKey", FString cacheKey);
                    ("searchTerms", FStrings searchTerms)]
        "Cache miss, generating new image" >>
      let* result :=
        api_findVideo api
          (mkRequest searchTerms minDurationSeconds excludeIds orientation) in
      let* cached :=
        try_catch
          (FileCache.setFromDataUrl cacheKey (Video.url result) None >>
           let* fileUrl := FileCache.getFileUrl cacheKey in
           match truthy fileUrl with
           | Some fileUrl =>
               ret (Some (Video.mk cacheKey fileUrl
                            (Video.width result) (Video.height result)))
           | None => ret None
           end)
          (fun e =>
             logger.error e
               "Failed to cache image, returning original data URL" >>
             ret None) in
      match cached with
      | Some video => ret video
      | None => ret result
      end
  end.

Definition cleanup : M unit := FileCache.cleanup.
Definition clear : M unit := FileCache.clear.
Definition getStats : M Stats.t := FileCache.getStats.

End Methods.
End CachedOpenAIImagesAPI.

(** ** Opening a cache: [new FileCache(cacheDir, defaultTTL)] *)

(** [fs.readJsonSync] reads a file and parses it. What the bytes of an
    index document parse to is the business of the JSON library: a
    table of entries, or an error for bytes that are no JSON or no
    object. *)
Class JsonReader := {
  json_parse : list byte → Result (gmap string CacheEntry.t);
}.

Definition readJsonSync `{JsonReader} (p : string)
  : M (gmap string CacheEntry.t) :=
  let* data := fs.readFileSync p in
  fun s => (json_parse data, s).

(** [this.index = ...] *)
Definition index_assign (ix : gmap string CacheEntry.t) : M unit :=
  fun s => (Ok tt, with_index ix s).

(** The default value of the parameter [defaultTTL]. *)
Definition DEFAULT_TTL : Z := 7 * 24 * 60 * 60 * 1000.

(** [fs.ensureDirSync]. The disk of the model holds files by full path
    and no directories, so what the call finds when the path is not
    that of a file is given from outside: the directory is there or is
    made, and the call returns, or it cannot be made, and the call
    raises. *)
Class Directories := {
  mkdirs : gmap string (list byte) → string → Result unit;
}.

(** The call raises when the path is taken by a file. It writes and
    removes no file. *)
Definition ensureDirSync `{Directories} (dir : string) : M unit :=
  fun s =>
    match disk s !! dir with
    | Some _ => (Throw "EEXIST", s)
    | None => (mkdirs (disk s) dir, s)
    end.

Definition ensureCacheDir `{Directories} : M unit :=
  let* c := this in
  ensureDirSync (cacheDir c).

Definition loadIndex `{JsonReader} : M unit :=
  try_catch
    (let* c := this in
     let* present := fs.existsSync (indexPath c) in
     if present then
       let* data := readJsonSync (indexPath c) in
       index_assign data >>
       let* c' := this in
       logger.debug [("indexSize", FNumber (Z.of_nat (size (index c'))))]
         "Loaded cache index"
     else ret tt)
    (fun e =>
       logger.error e "Failed to load cache index" >>
       index_assign ∅).

(** The constructor: the fields are set, the directory is made sure
    of, then the index is loaded. The state holds the object being
    built; an error of [ensureCacheDir] is not caught. *)
Definition new_FileCache `{Platform} `{JsonReader} `{Directories}
    (cacheDir : string) (defaultTTL : option Z) : M unit :=
  (fun s =>
     (Ok tt,
      mkState
        (mkFileCache cacheDir (path_join cacheDir "index.json")
           (default DEFAULT_TTL defaultTTL) ∅)
        (disk s) (clock s) (ticks s) (logs s) (requests s))) >>
  ensureCacheDir >>
  loadIndex.

(** [new CachedOpenAIImagesAPI(api, cacheDir)]. The directory used when
    [cacheDir] is missing or empty is under the home directory of the
    user; it is given as [fallback]. *)
Definition new_CachedOpenAIImagesAPI `{Platform} `{JsonReader} `{Directories}
    (fallback : string) (cacheDir : option string) : M unit :=
  let dir := match truthy cacheDir with Some dir => dir | None => fallback end in
  new_FileCache dir None.

(** ** The image generator ([OpenAIImages.ts]) *)

(** [type ImageStyle], the members of [IMAGE_STYLES]. *)
Inductive ImageStyle :=
| creepy_cartoon_tiktok
| glitchy
| neon
| pastel_creepy
| vhs
| comic_pop
| surreal
| haunted_book
| retro_anime
| stop_motion.

(** The string each style is in the source. *)
Definition style_name (style : ImageStyle) : string :=
  match style with
  | creepy_cartoon_tiktok => "creepy-cartoon-tiktok"
  | glitchy => "glitchy"
  | neon => "neon"
  | pastel_creepy => "pastel-creepy"
  | vhs => "vhs"
  | comic_pop => "comic-pop"
  | surreal => "surreal"
  | haunted_book => "haunted-book"
  | retro_anime => "retro-anime"
  | stop_motion => "stop-motion"
  end.

Definition IMAGE_STYLES : list ImageStyle :=
  [creepy_cartoon_tiktok;
   glitchy;
   neon;
   pastel_creepy;
   vhs;
   comic_pop;
   surreal;
   haunted_book;
   retro_anime;
   stop_motion].

Definition PROMPT_TEMPLATES (style : ImageStyle) : string :=
  match style with
  | creepy_cartoon_tiktok =>
      "{searchTerm}. Render as a high-detail creepy cartoon in a viral TikTok art style: exaggerated features, high-contrast shading, bold colors, grainy film texture, dramatic side lighting, cinematic framing, subtle vignette; slightly unsettling expressions; no photorealism. Size: {width}x{height}."
  | glitchy =>
      "{searchTerm}. Render as a creepy cartoon in a glitchy viral-TikTok aesthetic: jittery halftone linework, RGB split/chromatic aberration, datamosh artifacts, digital scanlines, high-contrast neon highlights, bold cel-shading, dramatic low-angle composition; subtle motion blur as if frame-skipping. Do not render photorealistic. Size: {width}x{height}."
  | neon =>
      "{searchTerm}. Render as a creepy, neon-lit cartoon in a viral TikTok style: saturated neon palette (magenta, cyan, electric blue), strong rim light, reflective wet surfaces, cinematic depth, bold ink outlines, synthwave vibes, slightly uncanny expressions. Keep it stylized, not photorealistic. Size: {width}x{height}."
  | pastel_creepy =>
      "{searchTerm}. Render as a creepy cartoon in a viral TikTok pastel style: soft pastel palette (muted pinks, mint, lavender), grainy texture, quirky unsettling smile, childlike character design with eerie atmosphere, low-contrast lighting, film grain, hand-drawn ink details. No photorealism. Size: {width}x{height}."
  | vhs =>
      "{searchTerm}. Render as a creepy cartoon in a 90s VHS viral TikTok look: heavy film grain, color bleed, soft focus, analog noise, saturated cyan-magenta tint, bold cartoon inking, high contrast lighting, retro framing. Slightly degraded edges and scanline artifacts. Not photorealistic. Size: {width}x{height}."
  | comic_pop =>
      "{searchTerm}. Render as a creepy cartoon in a comic-pop viral TikTok style: thick halftone shading, dramatic cross-hatching, cinematic panel composition, saturated flat colors, exaggerated expressions, bold contrast, dynamic perspective. Add subtle vignette. Not photorealistic. Size: {width}x{height}."
  | surreal =>
      "{searchTerm}. Render as a surreal creepy cartoon in a viral TikTok aesthetic: dreamlike floating elements, warped perspective, soft glows, muted color palette with one contrasting accent, delicate linework, eerie yet whimsical mood; cinematic composition. No photorealism. Size: {width}x{height}."
  | haunted_book =>
      "{searchTerm}. Render as a creepy cartoon in the style of a haunted children's book, viral-TikTok friendly: slightly naive rounded forms, textured paper grain, muted autumnal palette, eerie smiling characters, soft vignette, gentle film grain; evoke unsettling nostalgia while staying illustrated. Not photorealistic. Size: {width}x{height}."
  | retro_anime =>
      "{searchTerm}. Render as a creepy cartoon in a retro anime viral TikTok style: cel-shaded, film grain, dramatic camera lens flares, moody backlighting, expressive eyes with uncanny detail, muted pastel highlights; cinematic composition, not photorealistic. Size: {width}x{height}."
  | stop_motion =>
      "{searchTerm}. Render as a creepy cartoon with a stop-motion / claymation TikTok vibe: slightly uneven textures, visible fingerprints and seams, tactile shadows, warm studio lighting, subtle jittered framing as if captured frame-by-frame; keep it illustrated/handmade, not photorealistic. Size: {width}x{height}."
  end.

Definition NEGATIVE_PROMPT : string :=
  "Avoid photorealism, photographic lighting, human skin pores, or realistic faces. No text, logos, or watermarks. Do not crop subjects off-frame; leave safe space for captions.".

(** [String.prototype.indexOf], as a split: the text before the first
    occurrence of [pat] in [s] and the text after it. *)
Fixpoint split_first (pat s : string) : option (string * string) :=
  match Str.strip_prefix pat s with
  | Some rest => Some (EmptyString, rest)
  | None =>
      match s with
      | EmptyString => None
      | String c r =>
          match split_first pat r with
          | Some (a, b) => Some (String c a, b)
          | None => None
          end
      end
  end.

(** What [replaceValue] stands for when the pattern is a string, so
    that there is no capture group: [$$] is a dollar sign, [$&] the
    text matched, [$`] the text before it, [$'] the text after it, and
    any other dollar sign is itself. *)
Fixpoint substitution (matched before after replaceValue : string) : string :=
  match replaceValue with
  | EmptyString => EmptyString
  | String c r =>
      if Ascii.eqb c "$"%char then
        match r with
        | String d r' =>
            if Ascii.eqb d "$"%char then
              String "$" (substitution matched before after r')
            else if Ascii.eqb d "&"%char then
              matched +:+ substitution matched before after r'
            else if Ascii.eqb d "`"%char then
              before +:+ substitution matched before after r'
            else if Ascii.eqb d "'"%char then
              after +:+ substitution matched before after r'
            else String c (substitution matched before after r)
        | EmptyString => String c EmptyString
        end
      else String c (substitution matched before after r)
  end.

(** [s.replace(searchValue, replaceValue)] for a string [searchValue]:
    the first occurrence only. *)
Definition replace (searchValue replaceValue s : string) : string :=
  match split_first searchValue s with
  | None => s
  | Some (before, after) =>
      before
      +:+ substitution searchValue before after replaceValue
      +:+ after
  end.

(** [n.toString()] for an integer [n]; widths and heights are whole
    numbers of pixels. *)
Definition Number_toString (n : Z) : string :=
  DecimalString.NilZero.string_of_int (Z.to_int n).

Definition getPrompt (style : ImageStyle) (searchTerm : string)
    (width height : Z) (modifiers : option string) : string :=
  let template := PROMPT_TEMPLATES style in
  let prompt :=
    replace "{height}" (Number_toString height)
      (replace "{width}" (Number_toString width)
         (replace "{searchTerm}" searchTerm template)) in
  let prompt :=
    match truthy modifiers with
    | Some modifiers => prompt +:+ " " +:+ modifiers
    | None => prompt
    end in
  prompt +:+ " " +:+ NEGATIVE_PROMPT.

(** [OpenAIImagesAPI.getSizeString] *)
Definition getSizeString (width height : Z) : string :=
  if height >? width then "1024x1792"
  else if width >? height then "1792x1024"
  else "1024x1024".

(** ** [class OpenAIImagesAPI] *)

Module Generation.
(** What [findVideo] posts to
    [https://api.openai.com/v1/images/generations]: the [Authorization]
    header and the fields of the body. *)
Record t := mk {
  authorization : string;
  model : string;
  prompt : string;
  n : Z;
  size : string;
  quality : string;
  response_format : string;
}.
End Generation.

(** What comes back, as far as [findVideo] looks at it. *)
Inductive Reply :=
(** [fetch] itself raises *)
| Rejected (e : Error)
(** [!response.ok]: the status, its text, and [JSON.stringify] of the
    body, or of [{}] when the body is no JSON *)
| Refused (status : Z) (statusText errorData : string)
(** [response.ok]: reading [(await response.json()).data[0].b64_json]
    raises, or finds no image or no [b64_json] in it, or finds the
    string *)
| Answered (b64_json : Result (option string)).

(** The network, and the table of sizes of [components/utils], which is
    not among the sources: both are taken as given. *)
Class Network := {
  fetch : Generation.t → Reply;
  getOrientationConfig : OrientationEnum → Z * Z;
}.

Module Generator.
Section Methods.
Context `{Network}.

Definition buildPrompt (imageStyle : ImageStyle) (searchTerm : string)
    (width height : Z) (modifiers : option string) : string :=
  getPrompt imageStyle searchTerm width height modifiers.

(** The request [findVideo] sends. *)
Definition generation (API_KEY : string) (imageStyle : ImageStyle)
    (searchTerms : list string) (orientation : OrientationEnum)
  : Generation.t :=
  let searchTerm := Str.join ", " searchTerms in
  let '(width, height) := getOrientationConfig orientation in
  Generation.mk ("Bearer " +:+ API_KEY) "dall-e-3"
    (buildPrompt imageStyle searchTerm width height None) 1
    (getSizeString width height) "standard" "b64_json".

Definition findVideo (API_KEY : string) (imageStyle : ImageStyle)
    (searchTerms : list string) (minDurationSeconds : Q)
    (excludeIds : list string) (orientation : OrientationEnum)
  : M Video.t :=
  if String.eqb API_KEY "" then throw "OpenAI API key not set"
  else
    let searchTerm := Str.join ", " searchTerms in
    let '(width, height) := getOrientationConfig orientation in
    logger.debug
      [("searchTerm", FString searchTerm);
       ("orientation", FString (orientation_tag orientation));
       ("imageStyle", FString (style_name imageStyle))]
      "Generating image with OpenAI" >>
    try_catch
      (match fetch (generation API_KEY imageStyle searchTerms orientation) with
       | Rejected e => throw e
       | Refused status statusText errorData =>
           if status =? 401 then
             throw "Invalid OpenAI API key - please set a valid key in OPENAI_API_KEY environment variable"
           else
             throw ("OpenAI API error: " +:+ Number_toString status +:+ " "
                    +:+ statusText +:+ " - " +:+ errorData)
       | Answered (Throw e) => throw e
       | Answered (Ok b64_json) =>
           match truthy b64_json with
           | None => throw "No image data returned from OpenAI"
           | Some b64_json =>
               let* now := Date_now in
               let id :=
                 "openai-" +:+ style_name imageStyle +:+ "-"
                 +:+ sanitize (Str.join "-" searchTerms) +:+ "-"
                 +:+ Number_toString now in
               let dataUrl := "data:image/png;base64," +:+ b64_json in
               logger.debug
                 [("id", FString id);
                  ("searchTerm", FString searchTerm);
                  ("imageStyle", FString (style_name imageStyle))]
                 "Image generated with OpenAI" >>
               ret (Video.mk id dataUrl width height)
           end
       end)
      (fun error =>
         logger.error error "Error generating image with OpenAI" >>
         throw error).

End Methods.
End Generator.

(** * Vocabulary of the properties *)

(** The characters of a key: lower-case letters, digits and hyphens. *)
Definition is_safe_char (c : ascii) : bool :=
  Str.is_lower c || Str.is_digit c || Ascii.eqb c "-"%char.

(** One more reading of the clock. *)
Definition ticked (s : State) : State := with_ticks (S (ticks s)) s.

(** The index document on disk rewritten from the index in memory. *)
Definition saved `{Platform} (s : State) : State :=
  with_disk
    (<[indexPath (cache s) := json_stringify (index (cache s))]> (disk s)) s.

(** The record of [id] removed from the index, and the index persisted. *)
Definition dropped `{Platform} (id : string) (s : State) : State :=
  saved (with_index (delete id (index (cache s))) s).

(** The file at [p] removed from the disk. *)
Definition unlinked (p : string) (s : State) : State :=
  with_disk (delete p (disk s)) s.

(** An entry of the index is live at time [now] when it has not expired
    and its file is on disk. *)
Definition live (now : Z) (s : State) (id : string) (e : CacheEntry.t) : Prop :=
  index (cache s) !! id = Some e
  ∧ expired now e = false
  ∧ is_Some (disk s !! CacheEntry.filePath e).

Ltac run :=
  unfold FileCache.saveIndex, FileCache.index_delete, FileCache.index_set,
    fs.writeJsonSync, fs.writeFileSync, fs.existsSync, fs.unlinkSync,
    fs.readFileSync, fs.statSync_size, logger.error, logger.debug,
    logger.log, Date_now, this, try_catch, bind, ret, throw;
  simpl.

(** The strings matched by [/^data:image\/(\w+);base64,(.+)$/], said
    without running the matcher: a media subtype made of word
    characters and a payload that stays on one line, both non-empty. *)
Definition is_image_data_url (dataUrl : string) : Prop :=
  ∃ format base64Data,
    dataUrl = "data:image/" +:+ format +:+ ";base64," +:+ base64Data
    ∧ format ≠ ""
    ∧ Str.forallb is_word_char format = true
    ∧ base64Data ≠ ""
    ∧ has_line_terminator base64Data = false.

(** ** A small platform and a few states, to run the methods on *)

Module Sample.

#[local] Instance platform : Platform := {|
  md5_hex s := s;
  base64_decode s := list_byte_of_string s;
  base64_encode b := string_of_list_byte b;
  path_join d f := d +:+ "/" +:+ f;
  json_stringify m :=
    list_byte_of_string (Str.join "," (fst <$> map_to_list m));
|}.

Definition week : Z := 7 * 24 * 60 * 60 * 1000.

Definition fields (ix : gmap string CacheEntry.t) : FileCacheFields :=
  mkFileCache "/cache" "/cache/index.json" week ix.

(** A clock that starts at [t0] and advances by one millisecond at
    each reading. *)
Definition clock_from (t0 : Z) : nat → Z := fun n => t0 + Z.of_nat n.

Definition state (ix : gmap string CacheEntry.t)
    (d : gmap string (list byte)) (t0 : Z) : State :=
  mkState (fields ix) d (clock_from t0) 0 [] [].

Definition png : list byte := list_byte_of_string "PNG-BYTES".

Definition cat : CacheEntry.t :=
  CacheEntry.mk "cat-portrait" "/cache/cat.png" 1000 week.
Definition dog : CacheEntry.t :=
  CacheEntry.mk "dog-portrait" "/cache/dog.png" 1000 50.
Definition owl : CacheEntry.t :=
  CacheEntry.mk "owl-portrait" "/cache/owl.png" 1000 week.

(** A fresh cache directory. *)
Definition fresh : State := state ∅ ∅ 5000.

(** One entry, live at time 5000. *)
Definition one_live : State :=
  state {[ "cat-portrait" := cat ]} {[ "/cache/cat.png" := png ]} 5000.

(** One entry whose time-to-live (50 ms) has passed at time 5000. *)
Definition one_expired : State :=
  state {[ "dog-portrait" := dog ]} {[ "/cache/dog.png" := png ]} 5000.

(** One entry whose file was removed behind the back of the cache. *)
Definition one_missing : State :=
  state {[ "owl-portrait" := owl ]} ∅ 5000.

(** A live entry, an expired one and one without its file. *)
Definition mixed : State :=
  state
    (<[ "cat-portrait" := cat ]>
       (<[ "dog-portrait" := dog ]> {[ "owl-portrait" := owl ]}))
    (<[ "/cache/cat.png" := png ]> {[ "/cache/dog.png" := png ]})
    5000.

End Sample.

(** Where [setFromDataUrl] writes the content stored under [id] with
    media subtype [format]. *)
Definition blob_path `{Platform} (id format : string) (s : State) : string :=
  path_join (cacheDir (cache s)) (md5_hex id +:+ "." +:+ format).

(** The entry [setFromDataUrl] records for [id]. *)
Definition new_entry `{Platform} (id format : string) (ttl : option Z)
    (s : State) : CacheEntry.t :=
  CacheEntry.mk id (blob_path id format s) (clock s (ticks s))
    (number_or ttl (defaultTTL (cache s))).

(** The state after a successful [setFromDataUrl]. *)
Definition stored `{Platform} (id format base64Data : string)
    (ttl : option Z) (s : State) : State :=
  with_logs
    (mkLog debug
       [("id", FString id); ("filePath", FString (blob_path id format s))]
       "Cached image to filesystem" :: logs s)
    (saved
       (with_index (<[id := new_entry id format ttl s]> (index (cache s)))
          (ticked
             (with_disk
                (<[blob_path id format s := base64_decode base64Data]>
                   (disk s)) s)))).

(** The size on disk of the file of an entry; nothing for a missing
    file. *)
Definition file_size (s : State) (e : CacheEntry.t) : Z :=
  match disk s !! CacheEntry.filePath e with
  | Some data => Z.of_nat (length data)
  | None => 0
  end.

(** The sizes of the files of the entries of the index, added up. *)
Definition bytes_on_disk (s : State) : Z :=
  map_fold (λ _ e total, file_size s e + total) 0 (index (cache s)).

Definition is_live (now : Z) (s : State) (e : CacheEntry.t) : bool :=
  negb (expired now e)
  && bool_decide (is_Some (disk s !! CacheEntry.filePath e)).

(** How many entries of the index are live at time [now]: neither
    expired nor without their file. *)
Definition live_count (now : Z) (s : State) : nat :=
  size (filter (λ kv, is_live now s kv.2 = true) (index (cache s))).

(** An entry of the index, with its key, has outlived its [ttl] at time
    [now]. *)
Definition is_old (now : Z) (kv : string * CacheEntry.t) : Prop :=
  expired now kv.2 = true.

#[global] Instance is_old_dec now kv : Decision (is_old now kv).
Proof. unfold is_old. apply _. Defined.

(** The entries of the index that [cleanup] finds expired at time
    [now], and the others. *)
Definition old_entries (now : Z) (s : State) : gmap string CacheEntry.t :=
  filter (is_old now) (index (cache s)).


(** One iteration of the loop of [cleanup] on an expired entry: its
    file is unlinked, its record dropped and the index persisted. *)
Definition purged `{Platform} (kv : string * CacheEntry.t) (s : State) : State :=
  dropped kv.1 (unlinked (CacheEntry.filePath kv.2) s).

(** The state after the loop of [cleanup] has visited the entries
    [l]. *)
Definition swept `{Platform} (now : Z) (l : list (string * CacheEntry.t))
    (s : State) : State :=
  foldl (λ s kv, if expired now kv.2 then purged kv s else s) s l.

(** The record [cleanup] hands to the logger: how many entries it
    deleted. *)
Definition cleanup_report (deletedCount : Z) : LogRecord :=
  mkLog debug [("deletedCount", FNumber deletedCount)]
    "Cleaned up expired cache entries".

(** One more record in the log. *)
Definition logged (r : LogRecord) (s : State) : State :=
  with_logs (r :: logs s) s.

(** The records [findVideo] hands to the logger. *)
Definition hit_log (key url : string) : LogRecord :=
  mkLog debug [("cacheKey", FString key); ("url", FString url)]
    "Using cached image".

Definition miss_log (key : string) (terms : list string) : LogRecord :=
  mkLog debug [("cacheKey", FString key); ("searchTerms", FStrings terms)]
    "Cache miss, generating new image".

Definition cache_failure_log (e : Error) : LogRecord :=
  mkLog error [("err", FString e)]
    "Failed to cache image, returning original data URL".

(** The state in which the generator has been asked: the miss is
    logged and the request is on the trace. *)
Definition asked (req : Request) (s : State) : State :=
  with_requests (req :: requests s)
    (logged
       (miss_log (cacheKey (searchTerms req) (orientation req))
          (searchTerms req)) s).

(** The dimensions [findVideo] gives an image it serves from the
    cache. *)
Definition hit_width (o : OrientationEnum) : Z :=
  match o with portrait => 1080 | landscape => 1920 end.

Definition hit_height (o : OrientationEnum) : Z :=
  match o with portrait => 1920 | landscape => 1080 end.

(** A generator that answers every request with the same picture,
    embedded in a data URL, and one that answers with a remote URL,
    which the cache cannot store. *)
Definition Sample_generator : OpenAIImagesAPI :=
  λ _ _, Ok (Video.mk "openai-realistic-cat-1" "data:image/png;base64,Q0FU"
               1080 1920).

Definition Sample_remote_generator : OpenAIImagesAPI :=
  λ _ _, Ok (Video.mk "openai-realistic-cat-1" "https://example.com/cat.png"
               1080 1920).

(** The state after the loop of [clear] has visited the entries [l]:
    each was deleted in turn. *)
Definition emptied `{Platform} (l : list (string * CacheEntry.t))
    (s : State) : State :=
  foldl (λ s kv, purged kv s) s l.

(** The record [clear] hands to the logger. *)
Definition clear_report : LogRecord :=
  mkLog debug [] "Cleared all cache entries".

(** A generator that is out of order. *)
Definition Sample_failing_generator : OpenAIImagesAPI :=
  λ _ _, Throw "OpenAI API error: 500".

(** A character [getPrompt] copies as it is: neither a dollar sign,
    which [replace] reads in its second argument, nor an opening
    brace, with which the placeholders start. *)
Definition is_plain_char (c : ascii) : bool :=
  negb (Ascii.eqb c "$"%char) && negb (Ascii.eqb c "{"%char).

(** The text of a template between [{searchTerm}] and
    [{width}x{height}.]. *)
Definition template_body (style : ImageStyle) : string :=
  match Str.strip_prefix "{searchTerm}" (PROMPT_TEMPLATES style) with
  | Some rest =>
      match split_first "{width}" rest with
      | Some (body, _) => body
      | None => rest
      end
  | None => PROMPT_TEMPLATES style
  end.

(** What [getPrompt] appends for the modifiers. *)
Definition modifiers_text (modifiers : option string) : string :=
  match truthy modifiers with
  | Some modifiers => " " +:+ modifiers
  | None => ""
  end.

(** A reader that knows one index document, the one of
    [Sample.one_live], and takes everything else for broken JSON. *)
Definition Sample_reader : JsonReader := {|
  json_parse bytes :=
    if String.eqb (string_of_list_byte bytes)
         (string_of_list_byte
            (json_stringify (Platform := Sample.platform)
               (index (cache Sample.one_live))))
    then Ok (index (cache Sample.one_live))
    else Throw "SyntaxError";
|}.

(** A file system in which every directory is there or can be made. *)
Definition Sample_directories : Directories := {|
  mkdirs _ _ := Ok tt;
|}.

(** A disk on which the path of the cache directory is taken by a
    file. *)
Definition Sample_blocked : State :=
  Sample.state ∅ {[ "/cache" := Sample.png ]} 5000.

(** The state in which the constructor calls [ensureCacheDir] and
    [loadIndex]: the fields are set and the index is empty. *)
Definition blank `{Platform} (cacheDir : string) (defaultTTL : option Z)
    (s : State) : State :=
  mkState
    (mkFileCache cacheDir (path_join cacheDir "index.json")
       (default DEFAULT_TTL defaultTTL) ∅)
    (disk s) (clock s) (ticks s) (logs s) (requests s).

(** ** The elementary changes of state *)

(** Every method of the cache, and [findVideo], changes the state by a
    succession of these: a reading of the clock, a log record, a
    request to the generator, the purge of a record (with or without
    the unlinking of a file) and the storing of an entry. *)
Inductive step `{Platform} : State → State → Prop :=
| step_tick s : step s (ticked s)
| step_log r s : step s (logged r s)
| step_ask req s : step s (with_requests (req :: requests s) s)
| step_drop id s : step s (dropped id s)
| step_purge id p s : step s (dropped id (unlinked p s))
| step_store id format payload ttl s :
    step s (stored id format payload ttl s).

(** A call of a method, with its arguments. *)
Inductive Call :=
| call_has (id : string)
| call_get (id : string)
| call_getFileUrl (id : string)
| call_getDataUrl (id : string)
| call_setFromDataUrl (id dataUrl : string) (ttl : option Z)
| call_delete (id : string)
| call_cleanup
| call_clear
| call_getStats
| call_findVideo (api : OpenAIImagesAPI) (searchTerms : list string)
    (minDurationSeconds : Q) (excludeIds : list string)
    (orientation : OrientationEnum).

(** The state a call leaves, whether it returns or raises. *)
Definition after `{Platform} (c : Call) (s : State) : State :=
  match c with
  | call_has id => (FileCache.has id s).2
  | call_get id => (FileCache.get id s).2
  | call_getFileUrl id => (FileCache.getFileUrl id s).2
  | call_getDataUrl id => (FileCache.getDataUrl id s).2
  | call_setFromDataUrl id dataUrl ttl =>
      (FileCache.setFromDataUrl id dataUrl ttl s).2
  | call_delete id => (FileCache.delete id s).2
  | call_cleanup => (FileCache.cleanup s).2
  | call_clear => (FileCache.clear s).2
  | call_getStats => (FileCache.getStats s).2
  | call_findVideo api terms dur excl o =>
      (CachedOpenAIImagesAPI.findVideo api terms dur excl o s).2
  end.

(** The state after a succession of calls. *)
Definition after_all `{Platform} (calls : list Call) (s : State) : State :=
  foldl (λ s c, after c s) s calls.

(** The configuration of a cache: its directory, the path of its index
    document and its default time-to-live. *)
Definition config (s : State) : string * string * Z :=
  (cacheDir (cache s), indexPath (cache s), defaultTTL (cache s)).

(** The index document on disk is the index in memory. *)
Definition synced `{Platform} (s : State) : Prop :=
  disk s !! indexPath (cache s) = Some (json_stringify (index (cache s))).

(** Every entry is recorded under its own [id]. *)
Definition keyed (s : State) : Prop :=
  ∀ id e, index (cache s) !! id = Some e → CacheEntry.id e = id.

(** The record [Generator.findVideo] logs before it sends anything. *)
Definition generating_log (style : ImageStyle) (terms : list string)
    (o : OrientationEnum) : LogRecord :=
  mkLog debug
    [("searchTerm", FString (Str.join ", " terms));
     ("orientation", FString (orientation_tag o));
     ("imageStyle", FString (style_name style))]
    "Generating image with OpenAI".

(** The record it logs when the generation fails. *)
Definition generation_error_log (e : Error) : LogRecord :=
  mkLog error [("err", FString e)] "Error generating image with OpenAI".

(** A network that answers every request with the same picture, and
    the sizes of the two orientations. *)
Definition Sample_network : Network := {|
  fetch _ := Answered (Ok (Some "Q0FU"));
  getOrientationConfig o :=
    match o with portrait => (1080, 1920) | landscape => (1920, 1080) end;
|}.

(** A network that turns every key down. *)
Definition Sample_unauthorized : Network := {|
  fetch _ := Refused 401 "Unauthorized" "{}";
  getOrientationConfig o :=
    match o with portrait => (1080, 1920) | landscape => (1920, 1080) end;
|}.


(** * Properties *)

(** ** Key derivation *)

Section KeyDerivation.

Lemma filter_append p (a b : string) :
  Str.filter p (a +:+ b) = Str.filter p a +:+ Str.filter p b.
Proof.
  induction a as [|c a IH]; simpl; [done|].
  destruct (p c); simpl; by rewrite IH.
Qed.

Lemma map_append f (a b : string) :
  Str.map f (a +:+ b) = Str.map f a +:+ Str.map f b.
Proof. induction a as [|c a IH]; simpl; [done|by rewrite IH]. Qed.

Lemma sanitize_append (a b : string) :
  sanitize (a +:+ b) = sanitize a +:+ sanitize b.
Proof. unfold sanitize, Str.toLowerCase. by rewrite filter_append, map_append. Qed.

(** The separator and the tag survive the clean-up unchanged. *)
Lemma sanitize_tag o :
  sanitize ("-" +:+ orientation_tag o) = "-" +:+ orientation_tag o.
Proof. by destruct o. Qed.

Lemma cacheKey_split terms o :
  cacheKey terms o
  = sanitize (Str.join "-" terms) +:+ "-" +:+ orientation_tag o.
Proof. unfold cacheKey. by rewrite sanitize_append, sanitize_tag. Qed.

Lemma last_append (a b : string) :
  b ≠ "" → Str.last (a +:+ b) = Str.last b.
Proof.
  intros Hb. induction a as [|c a IH]; simpl; [done|].
  rewrite IH. destruct (a +:+ b) eqn:E; [|done].
  destruct a; simpl in E; [done|discriminate].
Qed.

Lemma append_length (a b : string) :
  String.length (a +:+ b) = (String.length a + String.length b)%nat.
Proof. induction a as [|c a IH]; simpl; [done|by rewrite IH]. Qed.

Lemma append_cancel_r (a b t : string) : a +:+ t = b +:+ t → a = b.
Proof.
  revert b. induction a as [|c a IH]; intros [|d b] E; simpl in *.
  - done.
  - apply (f_equal String.length) in E.
    change (String.length t = S (String.length (b +:+ t))) in E.
    rewrite (append_length b t) in E. lia.
  - apply (f_equal String.length) in E.
    change (S (String.length (a +:+ t)) = String.length t) in E.
    rewrite (append_length a t) in E. lia.
  - injection E as -> E. f_equal. by apply IH.
Qed.

Lemma lower_key_char_safe c : is_key_char c = true → is_safe_char (Str.lower c) = true.
Proof.
  destruct c as [[] [] [] [] [] [] [] []]; vm_compute; congruence.
Qed.

Lemma sanitize_alphabet s : Str.forallb is_safe_char (sanitize s) = true.
Proof.
  unfold sanitize, Str.toLowerCase.
  induction s as [|c s IH]; simpl; [done|].
  destruct (is_key_char c) eqn:E; simpl; [|done].
  by rewrite lower_key_char_safe, IH.
Qed.

End KeyDerivation.

Example cacheKey_spooky :
  cacheKey ["spooky"; "playground"] portrait = "spooky-playground-portrait".
Proof. reflexivity. Qed.

Example cacheKey_mixed :
  cacheKey ["Haunted House!"; "fog"] landscape = "hauntedhouse-fog-landscape".
Proof. reflexivity. Qed.

(** C3, as stated, fails: two calls whose search terms differ can derive
    the same key. The terms [["a"; "b"]] and [["a-b"]] are different
    lists and both give [a-b-portrait]. *)
Lemma cacheKey_collision :
  ["a"; "b"] ≠ ["a-b"]
  ∧ cacheKey ["a"; "b"] portrait = cacheKey ["a-b"] portrait.
Proof. split; [discriminate|reflexivity]. Qed.

(** C3, amended. Key derivation is deterministic; two calls that differ
    in orientation derive different keys, whatever their search terms;
    and two calls with the same orientation derive the same key exactly
    when their search terms, joined by hyphens, agree once every
    character outside [A-Za-z0-9-] is dropped and the rest is put in
    lower case. *)
Theorem cacheKey_stable_and_separating :
  (∀ t1 o1 t2 o2, t1 = t2 → o1 = o2 → cacheKey t1 o1 = cacheKey t2 o2)
  ∧ (∀ t1 o1 t2 o2, o1 ≠ o2 → cacheKey t1 o1 ≠ cacheKey t2 o2)
  ∧ (∀ t1 t2 o,
        cacheKey t1 o = cacheKey t2 o
        ↔ sanitize (Str.join "-" t1) = sanitize (Str.join "-" t2)).
Proof.
  split; [|split].
  - by intros t1 o1 t2 o2 -> ->.
  - intros t1 o1 t2 o2 Ho E. rewrite !cacheKey_split in E.
    apply (f_equal Str.last) in E.
    rewrite !last_append in E by by destruct o1, o2.
    by destruct o1, o2.
  - intros t1 t2 o. rewrite !cacheKey_split. split.
    + apply append_cancel_r.
    + by intros ->.
Qed.

Lemma cacheKey_stable_and_separating_witness :
  cacheKey ["cat"] portrait = cacheKey ["cat"] portrait
  ∧ cacheKey ["cat"] portrait ≠ cacheKey ["dog"] landscape
  ∧ cacheKey ["a"; "b"] portrait = cacheKey ["a-b"] portrait.
Proof.
  destruct cacheKey_stable_and_separating as (Hdet & Hsep & Hsame).
  split; [|split].
  - by apply Hdet.
  - apply Hsep. discriminate.
  - apply Hsame. reflexivity.
Defined.

(** C8, as stated, fails: for the empty list of search terms the key is
    not the orientation tag alone; the separator written before the tag
    stays in front of it. *)
Lemma cacheKey_empty_terms_not_tag :
  cacheKey [] portrait = "-portrait"
  ∧ cacheKey [] portrait ≠ orientation_tag portrait.
Proof. split; [reflexivity|discriminate]. Qed.

(** C8, amended. Key derivation is total: every list of search terms and
    orientation has a key. For the empty list of search terms the key is
    a hyphen followed by the orientation tag ([-portrait] or
    [-landscape]). *)
Theorem cacheKey_total_and_empty_terms :
  (∀ terms o, ∃ key, cacheKey terms o = key)
  ∧ (∀ o, cacheKey [] o = "-" +:+ orientation_tag o).
Proof.
  split.
  - intros terms o. eexists. reflexivity.
  - by intros [].
Qed.

(** ** The elementary steps of [FileCache] *)

Section FileCacheSteps.
Context `{Platform}.

Lemma expired_spec now e :
  expired now e = true
  ↔ now - CacheEntry.createdAt e > CacheEntry.ttl e.
Proof. unfold expired. rewrite Z.gtb_gt. lia. Qed.

Lemma not_expired_spec now e :
  expired now e = false
  ↔ now - CacheEntry.createdAt e ≤ CacheEntry.ttl e.
Proof.
  unfold expired. destruct (Z.gtb_spec (now - CacheEntry.createdAt e)
    (CacheEntry.ttl e)); split; (done || lia).
Qed.

(** [saveIndex] never raises: in this model of the disk a write
    succeeds, so the handler of [saveIndex] is not entered. *)
Lemma saveIndex_eq s : FileCache.saveIndex s = (Ok tt, saved s).
Proof. reflexivity. Qed.

(** The guard [existsSync] keeps [unlinkSync] from raising. *)
Lemma delete_present id e s :
  index (cache s) !! id = Some e →
  FileCache.delete id s
  = (Ok tt, dropped id (unlinked (CacheEntry.filePath e) s)).
Proof.
  intros He. unfold FileCache.delete. run. rewrite He. run.
  destruct (disk s !! CacheEntry.filePath e) as [b|] eqn:Hd.
  - rewrite bool_decide_eq_true_2 by eauto. simpl. rewrite Hd. reflexivity.
  - rewrite bool_decide_eq_false_2 by (intros [? ?]; congruence). simpl.
    unfold dropped, unlinked, saved. simpl.
    rewrite (delete_id (disk s)) by done.
    by destruct s.
Qed.

Lemma delete_absent id s :
  index (cache s) !! id = None → FileCache.delete id s = (Ok tt, s).
Proof. intros He. unfold FileCache.delete. run. by rewrite He. Qed.

Lemma has_absent id s :
  index (cache s) !! id = None → FileCache.has id s = (Ok false, s).
Proof. intros He. unfold FileCache.has. run. by rewrite He. Qed.

Lemma has_expired id e s :
  index (cache s) !! id = Some e →
  expired (clock s (ticks s)) e = true →
  FileCache.has id s
  = (Ok false, dropped id (unlinked (CacheEntry.filePath e) (ticked s))).
Proof.
  intros He Hx. unfold FileCache.has. run. rewrite He. run. rewrite Hx.
  unfold bind. rewrite (delete_present id e) by done. reflexivity.
Qed.

Lemma has_missing id e s :
  index (cache s) !! id = Some e →
  expired (clock s (ticks s)) e = false →
  disk s !! CacheEntry.filePath e = None →
  FileCache.has id s = (Ok false, dropped id (ticked s)).
Proof.
  intros He Hx Hd. unfold FileCache.has. run. rewrite He. run. rewrite Hx.
  simpl. rewrite Hd.
  rewrite bool_decide_eq_false_2 by (intros [? ?]; congruence).
  reflexivity.
Qed.

Lemma has_live id e s :
  live (clock s (ticks s)) s id e →
  FileCache.has id s = (Ok true, ticked s).
Proof.
  intros (He & Hx & Hd). unfold FileCache.has. run. rewrite He. run.
  rewrite Hx. simpl. by rewrite bool_decide_eq_true_2.
Qed.

End FileCacheSteps.

(** ** The data URL matcher *)

Section DataUrl.

Lemma strip_prefix_Some p s r :
  Str.strip_prefix p s = Some r ↔ s = p +:+ r.
Proof.
  revert s. induction p as [|a p IH]; intros s.
  - change ("" +:+ r) with r. simpl. split; [by intros [= ->]|by intros ->].
  - change (String a p +:+ r) with (String a (p +:+ r)).
    destruct s as [|b s]; simpl; [split; discriminate|].
    destruct (Ascii.eqb_spec a b) as [->|Hne].
    + rewrite IH. split; [by intros ->|by intros [= ->]].
    + split; [discriminate|]. intros [= -> _]. by destruct Hne.
Qed.

Lemma span_sound q s a b :
  Str.span q s = (a, b) → s = a +:+ b ∧ Str.forallb q a = true.
Proof.
  revert a b. induction s as [|c s IH]; intros a b; simpl.
  - by intros [= <- <-].
  - destruct (q c) eqn:Hq.
    + destruct (Str.span q s) as [a' b'] eqn:E. intros [= <- <-].
      destruct (IH a' b' eq_refl) as [-> Ha]. split; [done|].
      simpl. by rewrite Hq, Ha.
    + by intros [= <- <-].
Qed.

(** The run stops at the first character outside the class. *)
Lemma span_complete q a c b :
  Str.forallb q a = true → q c = false →
  Str.span q (a +:+ String c b) = (a, String c b).
Proof.
  intros Ha Hc. induction a as [|d a IH].
  - change ("" +:+ String c b) with (String c b). simpl. by rewrite Hc.
  - change (String d a +:+ String c b) with (String d (a +:+ String c b)).
    simpl in *. apply andb_true_iff in Ha as [Hd Ha].
    by rewrite Hd, IH.
Qed.

Lemma eqb_empty_false s : s ≠ "" → String.eqb s "" = false.
Proof. intros Hs. by apply String.eqb_neq. Qed.

(** The matcher accepts exactly the strings of the pattern, and
    returns its two groups. *)
Lemma matchDataUrl_Some dataUrl format base64Data :
  matchDataUrl dataUrl = Some (format, base64Data)
  ↔ dataUrl = "data:image/" +:+ format +:+ ";base64," +:+ base64Data
    ∧ format ≠ ""
    ∧ Str.forallb is_word_char format = true
    ∧ base64Data ≠ ""
    ∧ has_line_terminator base64Data = false.
Proof.
  unfold matchDataUrl. split.
  - destruct (Str.strip_prefix "data:image/" dataUrl) as [r|] eqn:E1;
      [|done].
    apply strip_prefix_Some in E1 as ->.
    destruct (Str.span is_word_char r) as [f r'] eqn:E2.
    apply span_sound in E2 as [-> Hf].
    destruct (String.eqb_spec f "") as [->|Hne]; [done|].
    destruct (Str.strip_prefix ";base64," r') as [d|] eqn:E3; [|done].
    apply strip_prefix_Some in E3 as ->.
    destruct (String.eqb_spec d "") as [->|Hd]; [done|]. simpl.
    destruct (has_line_terminator d) eqn:E4; [done|].
    by intros [= <- <-].
  - intros (-> & Hf & Hw & Hd & Hl).
    replace (Str.strip_prefix "data:image/"
               ("data:image/" +:+ format +:+ ";base64," +:+ base64Data))
      with (Some (format +:+ ";base64," +:+ base64Data))
      by (symmetry; by apply strip_prefix_Some).
    change (";base64," +:+ base64Data)
      with (String ";" ("base64," +:+ base64Data)).
    rewrite span_complete by done.
    rewrite eqb_empty_false by done.
    replace (Str.strip_prefix ";base64,"
               (String ";" ("base64," +:+ base64Data)))
      with (Some base64Data)
      by (symmetry; by apply strip_prefix_Some).
    rewrite eqb_empty_false by done. simpl. by rewrite Hl.
Qed.

Lemma matchDataUrl_None dataUrl :
  matchDataUrl dataUrl = None ↔ ¬ is_image_data_url dataUrl.
Proof.
  split.
  - intros E (f & d & Hm). apply matchDataUrl_Some in Hm. congruence.
  - intros Hn. destruct (matchDataUrl dataUrl) as [[f d]|] eqn:E; [|done].
    destruct Hn. exists f, d. by apply matchDataUrl_Some.
Qed.

End DataUrl.

Example matchDataUrl_png :
  matchDataUrl "data:image/png;base64,iVBORw0KGgo=" = Some ("png", "iVBORw0KGgo=").
Proof. reflexivity. Qed.

Example matchDataUrl_rejects_plus :
  matchDataUrl "data:image/svg+xml;base64,PHN2Zz4=" = None.
Proof. reflexivity. Qed.

Example matchDataUrl_rejects_newline :
  matchDataUrl ("data:image/png;base64,iVBO" +:+ String "010" "Rw0K") = None.
Proof. reflexivity. Qed.

(** ** [FileCache.setFromDataUrl] *)

(** C5. For every [dataUrl] that is not of the form
    [data:image/<subtype>;base64,<payload>], [setFromDataUrl] raises
    ["Invalid data URL format"] and leaves the whole state as it was:
    the index in memory, the files of the cache directory (the index
    document among them), the clock and the log. *)
Theorem setFromDataUrl_rejects_malformed `{Platform}
    (id dataUrl : string) (ttl : option Z) (s : State) :
  ¬ is_image_data_url dataUrl →
  FileCache.setFromDataUrl id dataUrl ttl s
  = (Throw "Invalid data URL format", s).
Proof.
  intros Hbad. apply matchDataUrl_None in Hbad.
  unfold FileCache.setFromDataUrl. by rewrite Hbad.
Qed.

Lemma setFromDataUrl_rejects_malformed_witness :
  ¬ is_image_data_url "not-a-data-url"
  ∧ FileCache.setFromDataUrl (H := Sample.platform)
      "cat-portrait" "not-a-data-url" None Sample.one_live
    = (Throw "Invalid data URL format", Sample.one_live).
Proof.
  assert (Hbad : ¬ is_image_data_url "not-a-data-url").
  { apply matchDataUrl_None. reflexivity. }
  split; [exact Hbad|].
  exact (setFromDataUrl_rejects_malformed (H := Sample.platform)
           "cat-portrait" "not-a-data-url" None Sample.one_live Hbad).
Defined.

(** ** [FileCache.has] *)

Section Has.
Context `{Platform}.

Lemma index_dropped id s :
  index (cache (dropped id s)) = delete id (index (cache s)).
Proof. reflexivity. Qed.

Lemma disk_dropped id s :
  disk (dropped id s)
  = <[indexPath (cache s) := json_stringify (delete id (index (cache s)))]>
      (disk s).
Proof. reflexivity. Qed.

(** After a purge the index document on disk is the index in memory. *)
Lemma dropped_persisted id s :
  disk (dropped id s) !! indexPath (cache (dropped id s))
  = Some (json_stringify (index (cache (dropped id s)))).
Proof. rewrite disk_dropped. apply lookup_insert_eq. Qed.

End Has.

(** C2. [has(id)] never raises; it answers [true] exactly when the
    index has an entry for [id] whose age, [now - createdAt], does not
    exceed its [ttl] and whose file is on disk. When the index has an
    entry that is expired or whose file is missing, the call answers
    [false], the entry is gone from the index, and the index document
    on disk is the index so reduced. *)
Theorem has_true_iff_live `{Platform} (id : string) (s : State) :
  let now := clock s (ticks s) in
  ∃ answer s',
    FileCache.has id s = (Ok answer, s')
    ∧ (answer = true
       ↔ ∃ e, index (cache s) !! id = Some e
              ∧ now - CacheEntry.createdAt e ≤ CacheEntry.ttl e
              ∧ is_Some (disk s !! CacheEntry.filePath e))
    ∧ (∀ e, index (cache s) !! id = Some e →
            now - CacheEntry.createdAt e > CacheEntry.ttl e
            ∨ disk s !! CacheEntry.filePath e = None →
            answer = false
            ∧ index (cache s') = delete id (index (cache s))
            ∧ disk s' !! indexPath (cache s')
              = Some (json_stringify (index (cache s')))).
Proof.
  intros now.
  destruct (index (cache s) !! id) as [e|] eqn:He.
  - destruct (expired now e) eqn:Hx.
    + exists false, (dropped id (unlinked (CacheEntry.filePath e) (ticked s))).
      split; [by apply (has_expired id e)|]. apply expired_spec in Hx. split.
      * split; [done|]. intros (e' & [= <-] & Hage & _). lia.
      * intros e' [= <-] _. split; [done|]. split; [done|].
        apply dropped_persisted.
    + destruct (disk s !! CacheEntry.filePath e) as [b|] eqn:Hd.
      * exists true, (ticked s). split.
        { apply (has_live id e). split; [done|]. split; [done|].
          rewrite Hd. eauto. }
        apply not_expired_spec in Hx. split.
        -- split; [|done]. intros _. exists e. rewrite Hd. eauto.
        -- intros e' [= <-] [Hage|Hnone]; [lia|congruence].
      * exists false, (dropped id (ticked s)).
        split; [by apply (has_missing id e)|]. split.
        -- split; [done|]. intros (e' & [= <-] & _ & [b Hb]). congruence.
        -- intros e' [= <-] _. split; [done|]. split; [done|].
           apply dropped_persisted.
  - exists false, s. split; [by apply has_absent|]. split.
    + split; [done|]. by intros (e & ? & _).
    + by intros e ?.
Qed.

(** The theorem at work: the entry of [Sample.one_live] is reported
    live, and the one of [Sample.one_missing], whose file is gone, is
    reported dead and purged. *)
Lemma has_true_iff_live_witness :
  (∃ s', FileCache.has (H := Sample.platform) "cat-portrait" Sample.one_live
         = (Ok true, s'))
  ∧ (∃ s', FileCache.has (H := Sample.platform) "owl-portrait"
             Sample.one_missing = (Ok false, s')
           ∧ index (cache s') = delete "owl-portrait"
                                  (index (cache Sample.one_missing))).
Proof.
  split.
  - destruct (has_true_iff_live (H := Sample.platform) "cat-portrait"
                Sample.one_live) as (answer & s' & Hrun & Hiff & _).
    exists s'. rewrite Hrun. f_equal. f_equal. apply Hiff.
    exists Sample.cat. split; [reflexivity|]. split; [vm_compute; discriminate|].
    vm_compute. eauto.
  - destruct (has_true_iff_live (H := Sample.platform) "owl-portrait"
                Sample.one_missing) as (answer & s' & Hrun & _ & Hpurge).
    destruct (Hpurge Sample.owl) as (Hanswer & Hindex & _).
    + reflexivity.
    + right. reflexivity.
    + exists s'. rewrite Hrun, Hanswer. split; [reflexivity|exact Hindex].
Defined.

(** C9. The two purges of [has] differ in what they do to the disk.
    For an entry older than its [ttl], the file of the entry is
    unlinked, the record leaves the index and the index document is
    rewritten. For an entry within its [ttl] whose file is already
    missing, the record leaves the index and the index document is
    rewritten, and no other path of the disk changes. *)
Theorem has_purges `{Platform} (id : string) (e : CacheEntry.t) (s : State) :
  let now := clock s (ticks s) in
  let index' := delete id (index (cache s)) in
  index (cache s) !! id = Some e →
  (now - CacheEntry.createdAt e > CacheEntry.ttl e →
   ∃ s', FileCache.has id s = (Ok false, s')
         ∧ index (cache s') = index'
         ∧ disk s' = <[indexPath (cache s) := json_stringify index']>
                       (delete (CacheEntry.filePath e) (disk s))
         ∧ (CacheEntry.filePath e ≠ indexPath (cache s) →
            disk s' !! CacheEntry.filePath e = None))
  ∧ (now - CacheEntry.createdAt e ≤ CacheEntry.ttl e →
     disk s !! CacheEntry.filePath e = None →
     ∃ s', FileCache.has id s = (Ok false, s')
           ∧ index (cache s') = index'
           ∧ disk s' = <[indexPath (cache s) := json_stringify index']>
                         (disk s)).
Proof.
  intros now index' He. split.
  - intros Hage. apply expired_spec in Hage.
    exists (dropped id (unlinked (CacheEntry.filePath e) (ticked s))).
    split; [by apply (has_expired id e)|]. split; [done|]. split; [done|].
    intros Hne. rewrite disk_dropped. simpl.
    rewrite lookup_insert_ne by done. apply lookup_delete_eq.
  - intros Hage Hd. apply not_expired_spec in Hage.
    exists (dropped id (ticked s)).
    split; [by apply (has_missing id e)|]. done.
Qed.

Lemma has_purges_witness :
  (∃ s', FileCache.has (H := Sample.platform) "dog-portrait"
           Sample.one_expired = (Ok false, s')
         ∧ disk s' !! "/cache/dog.png" = None)
  ∧ (∃ s', FileCache.has (H := Sample.platform) "owl-portrait"
             Sample.one_missing = (Ok false, s')
           ∧ index (cache s') = delete "owl-portrait"
                                  (index (cache Sample.one_missing))).
Proof.
  split.
  - destruct (has_purges (H := Sample.platform) "dog-portrait" Sample.dog
                Sample.one_expired eq_refl) as [Hexpired _].
    destruct Hexpired as (s' & Hrun & _ & _ & Hgone); [vm_compute; reflexivity|].
    exists s'. split; [exact Hrun|]. apply Hgone. discriminate.
  - destruct (has_purges (H := Sample.platform) "owl-portrait" Sample.owl
                Sample.one_missing eq_refl) as [_ Hmissing].
    destruct Hmissing as (s' & Hrun & Hindex & _);
      [vm_compute; discriminate|reflexivity|].
    exists s'. split; [exact Hrun|exact Hindex].
Defined.

(** ** Reading the cache: [get], [getFileUrl], [getDataUrl] *)

Section Reads.
Context `{Platform}.

Lemma truthy_Some p : p ≠ "" → truthy (Some p) = Some p.
Proof. intros Hp. unfold truthy. by rewrite eqb_empty_false. Qed.

Lemma truthy_inv x p : truthy x = Some p → x = Some p ∧ p ≠ "".
Proof.
  destruct x as [q|]; simpl; [|done].
  destruct (String.eqb_spec q ""); [done|]. by intros [= <-].
Qed.

Lemma get_live id e s :
  live (clock s (ticks s)) s id e →
  FileCache.get id s = (Ok (Some (CacheEntry.filePath e)), ticked s).
Proof.
  intros Hlive. unfold FileCache.get, bind.
  rewrite (has_live id e) by done. simpl.
  destruct Hlive as (He & _). unfold this. simpl. by rewrite He.
Qed.

Lemma get_dead id s s' :
  FileCache.has id s = (Ok false, s') →
  FileCache.get id s = (Ok None, s').
Proof. intros Hhas. unfold FileCache.get, bind. by rewrite Hhas. Qed.

Lemma getFileUrl_live id e s :
  live (clock s (ticks s)) s id e →
  CacheEntry.filePath e ≠ "" →
  FileCache.getFileUrl id s
  = (Ok (Some ("file://" +:+ CacheEntry.filePath e)), ticked s).
Proof.
  intros Hlive Hp. unfold FileCache.getFileUrl, bind.
  rewrite (get_live id e) by done. by rewrite truthy_Some.
Qed.

Lemma getFileUrl_dead id s s' :
  FileCache.has id s = (Ok false, s') →
  FileCache.getFileUrl id s = (Ok None, s').
Proof.
  intros Hhas. unfold FileCache.getFileUrl, bind.
  by rewrite (get_dead id s s').
Qed.

(** The file of a live entry can be read: the handler of
    [getDataUrl] is not entered. *)
Lemma getDataUrl_live id e data s :
  index (cache s) !! id = Some e →
  expired (clock s (ticks s)) e = false →
  disk s !! CacheEntry.filePath e = Some data →
  CacheEntry.filePath e ≠ "" →
  FileCache.getDataUrl id s
  = (Ok (Some ("data:image/png;base64," +:+ base64_encode data)), ticked s).
Proof.
  intros He Hx Hd Hp. unfold FileCache.getDataUrl, bind.
  rewrite (get_live id e) by (split; [done|]; split; [done|]; eauto).
  rewrite truthy_Some by done. run. by rewrite Hd.
Qed.

Lemma setFromDataUrl_stores id dataUrl format base64Data ttl s :
  matchDataUrl dataUrl = Some (format, base64Data) →
  FileCache.setFromDataUrl id dataUrl ttl s
  = (Ok (blob_path id format s), stored id format base64Data ttl s).
Proof.
  intros Hm. unfold FileCache.setFromDataUrl. rewrite Hm. reflexivity.
Qed.

End Reads.

(** C10. [getDataUrl] labels what it returns [image/png], whatever the
    media subtype the content was stored under. For every live entry
    (present in the index, within its [ttl], its file on disk under a
    non-empty path) the result is [data:image/png;base64,] followed by
    the encoding of the bytes of the file. In particular, content
    written by [setFromDataUrl] from a [data:image/jpeg;base64,...] URL
    and read back within its time-to-live comes back labelled
    [data:image/png;base64,...]. *)
Theorem getDataUrl_always_png `{Platform} :
  (∀ id e data s,
      index (cache s) !! id = Some e →
      clock s (ticks s) - CacheEntry.createdAt e ≤ CacheEntry.ttl e →
      disk s !! CacheEntry.filePath e = Some data →
      CacheEntry.filePath e ≠ "" →
      FileCache.getDataUrl id s
      = (Ok (Some ("data:image/png;base64," +:+ base64_encode data)),
         ticked s))
  ∧ (∀ id payload ttl s,
        payload ≠ "" →
        has_line_terminator payload = false →
        blob_path id "jpeg" s ≠ "" →
        blob_path id "jpeg" s ≠ indexPath (cache s) →
        clock s (S (ticks s)) - clock s (ticks s)
          ≤ number_or ttl (defaultTTL (cache s)) →
        ∃ s1 s2,
          FileCache.setFromDataUrl id ("data:image/jpeg;base64," +:+ payload)
            ttl s
          = (Ok (blob_path id "jpeg" s), s1)
          ∧ FileCache.getDataUrl id s1
            = (Ok (Some ("data:image/png;base64,"
                         +:+ base64_encode (base64_decode payload))), s2)).
Proof.
  split.
  - intros id e data s He Hage Hd Hp.
    apply getDataUrl_live with (e := e); try done.
    by apply not_expired_spec.
  - intros id payload ttl s Hpay Hline Hp Hip Hage.
    exists (stored id "jpeg" payload ttl s),
      (ticked (stored id "jpeg" payload ttl s)).
    split.
    + apply setFromDataUrl_stores. by apply matchDataUrl_Some.
    + apply getDataUrl_live with (e := new_entry id "jpeg" ttl s).
      * apply lookup_insert_eq.
      * by apply not_expired_spec.
      * simpl. rewrite lookup_insert_ne by done. apply lookup_insert_eq.
      * done.
Qed.

Lemma getDataUrl_always_png_witness :
  FileCache.getDataUrl (H := Sample.platform) "cat-portrait" Sample.one_live
  = (Ok (Some "data:image/png;base64,PNG-BYTES"), ticked Sample.one_live)
  ∧ ∃ s1 s2,
      FileCache.setFromDataUrl (H := Sample.platform) "owl-portrait"
        "data:image/jpeg;base64,JPEG-BYTES" None Sample.fresh
      = (Ok "/cache/owl-portrait.jpeg", s1)
      ∧ FileCache.getDataUrl (H := Sample.platform) "owl-portrait" s1
        = (Ok (Some "data:image/png;base64,JPEG-BYTES"), s2).
Proof.
  destruct (getDataUrl_always_png (H := Sample.platform)) as [Hlive Hjpeg].
  split.
  - apply (Hlive "cat-portrait" Sample.cat Sample.png Sample.one_live).
    + reflexivity.
    + vm_compute. discriminate.
    + reflexivity.
    + discriminate.
  - apply (Hjpeg "owl-portrait" "JPEG-BYTES" None Sample.fresh).
    + discriminate.
    + reflexivity.
    + discriminate.
    + discriminate.
    + vm_compute. discriminate.
Defined.

(** ** [FileCache.getStats] *)

Section GetStats.

(** The loop of [getStats]: the state does not change, and the guard
    [existsSync] keeps [statSync] from raising. *)
Lemma getStats_loop (l : list (string * CacheEntry.t)) (acc : Z) s :
  for_of l
    (fun '(_, entry) totalSize =>
       try_catch
         (let* present := fs.existsSync (CacheEntry.filePath entry) in
          if present then
            let* size := fs.statSync_size (CacheEntry.filePath entry) in
            ret (totalSize + size)
          else ret totalSize)
         (fun _ => ret totalSize))
    acc s
  = (Ok (acc + foldr (λ kv total, file_size s kv.2 + total) 0 l), s).
Proof.
  revert acc. induction l as [|[id e] l IH]; intros acc; simpl.
  - unfold ret. do 2 f_equal. lia.
  - unfold bind at 1. run. unfold file_size at 1.
    destruct (disk s !! CacheEntry.filePath e) as [data|] eqn:Hd.
    + rewrite bool_decide_eq_true_2 by eauto. simpl. rewrite Hd.
      rewrite IH. do 2 f_equal. lia.
    + rewrite bool_decide_eq_false_2 by (intros [? ?]; congruence).
      by rewrite IH.
Qed.

Lemma bytes_on_disk_foldr s :
  bytes_on_disk s
  = foldr (λ kv total, file_size s kv.2 + total) 0
      (map_to_list (index (cache s))).
Proof.
  unfold bytes_on_disk. rewrite map_fold_foldr.
  induction (map_to_list (index (cache s))) as [|[id e] l IH]; simpl;
    [done|by rewrite IH].
Qed.

End GetStats.

(** C7, as stated, fails: the count [getStats] returns is not the
    number of live entries. In [Sample.one_missing] the only entry has
    lost its file, so no entry is live, and the count returned is 1. In
    [Sample.mixed] one entry of three is live and the count is 3. *)
Lemma getStats_counts_dead_entries :
  (FileCache.getStats Sample.one_missing
   = (Ok (Stats.mk 1 0), Sample.one_missing)
   ∧ live_count 5000 Sample.one_missing = 0%nat)
  ∧ (FileCache.getStats Sample.mixed
     = (Ok (Stats.mk 3 18), Sample.mixed)
     ∧ live_count 5000 Sample.mixed = 1%nat).
Proof. split; split; vm_compute; reflexivity. Qed.

(** C7, amended. For every state of the cache, [getStats] returns, as
    [size], the number of entries of the index, expired entries and
    entries without their file included, and, as [totalSizeBytes], the
    sum of the sizes on disk of the entries whose file exists. It does
    not raise and leaves the state as it was: nothing is purged. *)
Theorem getStats_counts_index_entries (s : State) :
  FileCache.getStats s
  = (Ok (Stats.mk (Z.of_nat (size (index (cache s)))) (bytes_on_disk s)), s).
Proof.
  unfold FileCache.getStats, bind, this. rewrite getStats_loop.
  rewrite bytes_on_disk_foldr. reflexivity.
Qed.

(** ** [FileCache.cleanup] *)

Section Cleanup.
Context `{Platform}.

Lemma swept_cons now kv l s :
  swept now (kv :: l) s
  = swept now l (if expired now kv.2 then purged kv s else s).
Proof. reflexivity. Qed.

(** The loop of [cleanup] never raises; it counts the expired entries
    it visits and deletes each of them. *)
Lemma cleanup_loop now (l : list (string * CacheEntry.t)) (acc : Z) s :
  NoDup l.*1 →
  (∀ id e, (id, e) ∈ l → index (cache s) !! id = Some e) →
  for_of l
    (fun '(id, entry) deletedCount =>
       if expired now entry then
         FileCache.delete id >> ret (deletedCount + 1)
       else ret deletedCount)
    acc s
  = (Ok (acc + Z.of_nat (length (filter (is_old now) l))), swept now l s).
Proof.
  revert acc s. induction l as [|[id e] l IH]; intros acc s Hnd Hin.
  - simpl. unfold ret. do 2 f_equal. lia.
  - rewrite fmap_cons in Hnd. apply NoDup_cons in Hnd as [Hid Hnd].
    rewrite swept_cons. simpl for_of. cbn [snd]. unfold bind at 1.
    destruct (expired now e) eqn:Hx.
    + unfold bind at 1. rewrite (delete_present id e) by (apply Hin; left).
      unfold ret at 1. rewrite IH; [| done |].
      * rewrite filter_cons_True by done. simpl length.
        unfold purged. cbn [fst snd]. do 2 f_equal. lia.
      * intros id' e' Hl. unfold purged. rewrite index_dropped. simpl.
        rewrite lookup_delete_ne.
        { apply Hin. by right. }
        intros <-. apply Hid. by apply (list_elem_of_fmap_2 fst _ (id, e')).
    + unfold ret at 1. rewrite IH; [| done |].
      * rewrite filter_cons_False; [done|].
        unfold is_old. simpl. congruence.
      * intros id' e' Hl. apply Hin. by right.
Qed.


Lemma swept_requests now l s : requests (swept now l s) = requests s.
Proof.
  revert s. induction l as [|kv l IH]; intros s; [done|].
  rewrite swept_cons, IH. by destruct (expired now kv.2).
Qed.








(** Counting the expired entries of the list of the entries is
    counting those of the map. *)
Lemma length_filter_map_to_list (P : string * CacheEntry.t → Prop)
    `{!∀ kv, Decision (P kv)} (m : gmap string CacheEntry.t) :
  length (filter P (map_to_list m)) = size (filter P m).
Proof.
  rewrite <- length_map_to_list. apply Permutation_length.
  apply NoDup_Permutation.
  - apply NoDup_filter, NoDup_map_to_list.
  - apply NoDup_map_to_list.
  - intros [k e]. rewrite list_elem_of_filter, !elem_of_map_to_list.
    rewrite map_lookup_filter_Some. tauto.
Qed.


Lemma swept_none now l s :
  (∀ id e, (id, e) ∈ l → expired now e = false) →
  swept now l s = s.
Proof.
  induction l as [|[id e] l IH]; intros Hl; [done|].
  rewrite swept_cons. simpl. rewrite (Hl id e) by left.
  apply IH. intros id' e' He'. apply (Hl id'). by right.
Qed.

Lemma old_entries_none now s :
  (∀ id e, index (cache s) !! id = Some e → expired now e = false) →
  old_entries now s = ∅.
Proof.
  intros Hyoung. apply map_empty_filter. intros id e He Hold.
  unfold is_old in Hold. simpl in Hold. by rewrite (Hyoung id e) in Hold.
Qed.




Lemma cleanup_eq s :
  FileCache.cleanup s
  = (Ok tt,
     let s' := swept (clock s (ticks s)) (map_to_list (index (cache s)))
                 (ticked s) in
     with_logs
       (cleanup_report
          (Z.of_nat (size (old_entries (clock s (ticks s)) s))) :: logs s')
       s').
Proof.
  unfold FileCache.cleanup, bind at 1, Date_now.
  unfold bind at 1, this. unfold bind at 1.
  rewrite (cleanup_loop (clock s (ticks s))).
  - rewrite length_filter_map_to_list. reflexivity.
  - apply NoDup_fst_map_to_list.
  - intros id e. by rewrite elem_of_map_to_list.
Qed.

End Cleanup.




(** ** [CachedOpenAIImagesAPI.findVideo] *)

Section FindVideo.
Context `{Platform}.

(** [getFileUrl] never raises. Either the entry is live and its path is
    returned as a [file://] URL, or the answer is [null] and the key is
    then out of the index, unless its record holds an empty path. *)
Lemma getFileUrl_cases id s :
  (∃ e, live (clock s (ticks s)) s id e
        ∧ CacheEntry.filePath e ≠ ""
        ∧ FileCache.getFileUrl id s
          = (Ok (Some ("file://" +:+ CacheEntry.filePath e)), ticked s))
  ∨ (∃ s', FileCache.getFileUrl id s = (Ok None, s')
           ∧ requests s' = requests s
           ∧ ∀ e, index (cache s') !! id = Some e → CacheEntry.filePath e = "").
Proof.
  destruct (index (cache s) !! id) as [e|] eqn:He.
  - destruct (expired (clock s (ticks s)) e) eqn:Hx.
    + right. eexists. split; [|split].
      * apply getFileUrl_dead. by apply (has_expired id e).
      * reflexivity.
      * intros e'. rewrite index_dropped. simpl. by rewrite lookup_delete_eq.
    + destruct (disk s !! CacheEntry.filePath e) as [b|] eqn:Hd.
      * assert (Hlive : live (clock s (ticks s)) s id e).
        { split; [done|]. split; [done|]. rewrite Hd. eauto. }
        destruct (String.eqb_spec (CacheEntry.filePath e) "") as [Hp|Hp].
        -- right. exists (ticked s). split; [|split].
           ++ unfold FileCache.getFileUrl, bind.
              rewrite (get_live id e) by done. by rewrite Hp.
           ++ reflexivity.
           ++ intros e'. simpl. rewrite He. by intros [= <-].
        -- left. exists e. split; [done|]. split; [done|].
           by apply getFileUrl_live.
      * right. eexists. split; [|split].
        -- apply getFileUrl_dead. by apply (has_missing id e).
        -- reflexivity.
        -- intros e'. rewrite index_dropped. simpl.
           by rewrite lookup_delete_eq.
  - right. exists s. split; [|split].
    + apply getFileUrl_dead. by apply has_absent.
    + reflexivity.
    + intros e'. by rewrite He.
Qed.

Lemma truthy_file_url p : truthy (Some ("file://" +:+ p)) = Some ("file://" +:+ p).
Proof. reflexivity. Qed.

(** [findVideo] after a miss, step by step. *)
Lemma findVideo_miss api terms dur excl o s s1 :
  let key := cacheKey terms o in
  let req := mkRequest terms dur excl o in
  FileCache.getFileUrl key s = (Ok None, s1) →
  CachedOpenAIImagesAPI.findVideo api terms dur excl o s
  = match api (length (requests s1)) req with
    | Throw e => (Throw e, asked req s1)
    | Ok result =>
        match FileCache.setFromDataUrl key (Video.url result) None
                (asked req s1) with
        | (Throw e, s2) => (Ok result, logged (cache_failure_log e) s2)
        | (Ok _, s2) =>
            match FileCache.getFileUrl key s2 with
            | (Throw e, s3) => (Ok result, logged (cache_failure_log e) s3)
            | (Ok fileUrl, s3) =>
                match truthy fileUrl with
                | Some fileUrl =>
                    (Ok (Video.mk key fileUrl
                           (Video.width result) (Video.height result)), s3)
                | None => (Ok result, s3)
                end
            end
        end
    end.
Proof.
  intros key req Hget.
  unfold CachedOpenAIImagesAPI.findVideo. fold key. fold req.
  unfold bind at 1. rewrite Hget. cbn [truthy].
  unfold bind, try_catch, logger.error, logger.debug, logger.log,
    CachedOpenAIImagesAPI.api_findVideo, ret.
  cbv beta iota. cbn [requests with_logs].
  destruct (api (length (requests s1)) req) as [result|e]; [|done].
  change (with_requests _ _) with (asked req s1).
  destruct (FileCache.setFromDataUrl key (Video.url result) None
              (asked req s1)) as [[q|e] s2]; [|done].
  destruct (FileCache.getFileUrl key s2) as [[fileUrl|e] s3]; [|done].
  by destruct (truthy fileUrl).
Qed.

(** The ways through [findVideo]. *)

Lemma findVideo_hit api terms dur excl o s p s1 :
  FileCache.getFileUrl (cacheKey terms o) s
  = (Ok (Some ("file://" +:+ p)), s1) →
  CachedOpenAIImagesAPI.findVideo api terms dur excl o s
  = (Ok (Video.mk (cacheKey terms o) ("file://" +:+ p)
           (hit_width o) (hit_height o)),
     logged (hit_log (cacheKey terms o) ("file://" +:+ p)) s1).
Proof.
  intros Hget. unfold CachedOpenAIImagesAPI.findVideo, bind at 1.
  rewrite Hget, truthy_file_url. by destruct o.
Qed.

Lemma findVideo_generator_fails api terms dur excl o s s1 e :
  FileCache.getFileUrl (cacheKey terms o) s = (Ok None, s1) →
  api (length (requests s1)) (mkRequest terms dur excl o) = Throw e →
  CachedOpenAIImagesAPI.findVideo api terms dur excl o s
  = (Throw e, asked (mkRequest terms dur excl o) s1).
Proof.
  intros Hget Hapi. rewrite (findVideo_miss _ _ _ _ _ _ s1) by done.
  by rewrite Hapi.
Qed.

Lemma findVideo_cache_write_fails api terms dur excl o s s1 result e s2 :
  FileCache.getFileUrl (cacheKey terms o) s = (Ok None, s1) →
  api (length (requests s1)) (mkRequest terms dur excl o) = Ok result →
  FileCache.setFromDataUrl (cacheKey terms o) (Video.url result) None
    (asked (mkRequest terms dur excl o) s1) = (Throw e, s2) →
  CachedOpenAIImagesAPI.findVideo api terms dur excl o s
  = (Ok result, logged (cache_failure_log e) s2).
Proof.
  intros Hget Hapi Hset. rewrite (findVideo_miss _ _ _ _ _ _ s1) by done.
  by rewrite Hapi, Hset.
Qed.

Lemma findVideo_miss_cached api terms dur excl o s s1 result q s2 p s3 :
  FileCache.getFileUrl (cacheKey terms o) s = (Ok None, s1) →
  api (length (requests s1)) (mkRequest terms dur excl o) = Ok result →
  FileCache.setFromDataUrl (cacheKey terms o) (Video.url result) None
    (asked (mkRequest terms dur excl o) s1) = (Ok q, s2) →
  FileCache.getFileUrl (cacheKey terms o) s2
  = (Ok (Some ("file://" +:+ p)), s3) →
  CachedOpenAIImagesAPI.findVideo api terms dur excl o s
  = (Ok (Video.mk (cacheKey terms o) ("file://" +:+ p)
           (Video.width result) (Video.height result)), s3).
Proof.
  intros Hget Hapi Hset Hget2.
  rewrite (findVideo_miss _ _ _ _ _ _ s1) by done.
  by rewrite Hapi, Hset, Hget2.
Qed.

Lemma findVideo_miss_unreadable api terms dur excl o s s1 result q s2 s3 :
  FileCache.getFileUrl (cacheKey terms o) s = (Ok None, s1) →
  api (length (requests s1)) (mkRequest terms dur excl o) = Ok result →
  FileCache.setFromDataUrl (cacheKey terms o) (Video.url result) None
    (asked (mkRequest terms dur excl o) s1) = (Ok q, s2) →
  FileCache.getFileUrl (cacheKey terms o) s2 = (Ok None, s3) →
  CachedOpenAIImagesAPI.findVideo api terms dur excl o s = (Ok result, s3).
Proof.
  intros Hget Hapi Hset Hget2.
  rewrite (findVideo_miss _ _ _ _ _ _ s1) by done.
  by rewrite Hapi, Hset, Hget2.
Qed.

End FindVideo.

Section FindVideoCalls.
Context `{Platform}.

(** [setFromDataUrl] raises only on a string that is no image data URL,
    and then before it has touched anything. *)
Lemma setFromDataUrl_Throw id dataUrl ttl s e s' :
  FileCache.setFromDataUrl id dataUrl ttl s = (Throw e, s') →
  ¬ is_image_data_url dataUrl ∧ e = "Invalid data URL format" ∧ s' = s.
Proof.
  destruct (matchDataUrl dataUrl) as [[f d]|] eqn:Hm.
  - by rewrite (setFromDataUrl_stores id dataUrl f d).
  - unfold FileCache.setFromDataUrl. rewrite Hm. intros [= <- <-].
    split; [|done]. by apply matchDataUrl_None.
Qed.

Lemma findVideo_live api terms dur excl o s e :
  live (clock s (ticks s)) s (cacheKey terms o) e →
  CacheEntry.filePath e ≠ "" →
  CachedOpenAIImagesAPI.findVideo api terms dur excl o s
  = (Ok (Video.mk (cacheKey terms o) ("file://" +:+ CacheEntry.filePath e)
           (hit_width o) (hit_height o)),
     logged (hit_log (cacheKey terms o)
               ("file://" +:+ CacheEntry.filePath e)) (ticked s)).
Proof.
  intros Hlive Hp. apply findVideo_hit. by apply getFileUrl_live.
Qed.

(** What a successful call leaves behind when the key is in the index
    afterwards under a non-empty path: the call returned the key as
    [id] and the path as a [file://] URL, and the file is on disk. *)
Lemma findVideo_cached api terms dur excl o s v s1 e :
  CachedOpenAIImagesAPI.findVideo api terms dur excl o s = (Ok v, s1) →
  index (cache s1) !! cacheKey terms o = Some e →
  CacheEntry.filePath e ≠ "" →
  Video.id v = cacheKey terms o
  ∧ Video.url v = "file://" +:+ CacheEntry.filePath e
  ∧ is_Some (disk s1 !! CacheEntry.filePath e).
Proof.
  intros Hrun He Hp.
  destruct (getFileUrl_cases (cacheKey terms o) s)
    as [(e0 & (He0 & Hx0 & Hd0) & Hp0 & Hget)|(s' & Hget & _ & Hnone)].
  - rewrite (findVideo_hit _ _ _ _ _ _ _ (ticked s)) in Hrun by done.
    injection Hrun as <- <-. simpl in He. rewrite He0 in He.
    injection He as <-. done.
  - rewrite (findVideo_miss _ _ _ _ _ _ s') in Hrun by done.
    destruct (api _ _) as [result|err]; [|done].
    destruct (FileCache.setFromDataUrl _ _ _ _) as [[q|err] s2] eqn:Hset.
    + destruct (getFileUrl_cases (cacheKey terms o) s2)
        as [(e2 & (He2 & Hx2 & Hd2) & Hp2 & Hget2)|(s3 & Hget2 & _ & Hnone2)];
        rewrite Hget2 in Hrun.
      * rewrite truthy_file_url in Hrun. injection Hrun as <- <-.
        simpl in He. rewrite He2 in He. injection He as <-. done.
      * simpl in Hrun. injection Hrun as <- <-.
        by destruct Hp, (Hnone2 e).
    + apply setFromDataUrl_Throw in Hset as (_ & _ & ->).
      injection Hrun as <- <-. by destruct Hp, (Hnone e).
Qed.

End FindVideoCalls.

(** C4. On a cache miss for which the generator answers [result], if
    storing the answer raises, [findVideo] does not raise: it returns
    [result] itself, and the error is in the log. In particular, when
    the [url] of [result] is not an image data URL, [findVideo] returns
    [result], the log holds ["Invalid data URL format"], and neither the
    index nor the disk has changed since the miss was found. *)
Theorem findVideo_cache_failure_isolated `{Platform} (api : OpenAIImagesAPI)
    (terms : list string) (dur : Q) (excl : list string)
    (o : OrientationEnum) (s s1 : State) (result : Video.t) :
  let key := cacheKey terms o in
  let req := mkRequest terms dur excl o in
  FileCache.getFileUrl key s = (Ok None, s1) →
  api (length (requests s1)) req = Ok result →
  (∀ e s2,
      FileCache.setFromDataUrl key (Video.url result) None (asked req s1)
      = (Throw e, s2) →
      CachedOpenAIImagesAPI.findVideo api terms dur excl o s
      = (Ok result, logged (cache_failure_log e) s2))
  ∧ (¬ is_image_data_url (Video.url result) →
     ∃ s2,
       CachedOpenAIImagesAPI.findVideo api terms dur excl o s
       = (Ok result, s2)
       ∧ logs s2
         = cache_failure_log "Invalid data URL format"
             :: miss_log key terms :: logs s1
       ∧ index (cache s2) = index (cache s1)
       ∧ disk s2 = disk s1).
Proof.
  intros key req Hget Hapi. split.
  - intros e s2 Hset. by apply (findVideo_cache_write_fails _ _ _ _ _ _ s1).
  - intros Hbad.
    exists (logged (cache_failure_log "Invalid data URL format")
              (asked req s1)).
    split; [|done].
    apply (findVideo_cache_write_fails _ _ _ _ _ _ s1); [done|done|].
    unfold FileCache.setFromDataUrl.
    by rewrite (proj2 (matchDataUrl_None _) Hbad).
Qed.

(** The theorem at work: on a fresh cache, with a generator that answers
    with a remote URL, the caller gets the answer of the generator. *)
Lemma findVideo_cache_failure_isolated_witness :
  ∃ s2,
    CachedOpenAIImagesAPI.findVideo (H := Sample.platform)
      Sample_remote_generator ["cat"] 3 [] portrait Sample.fresh
    = (Ok (Video.mk "openai-realistic-cat-1" "https://example.com/cat.png"
             1080 1920), s2)
    ∧ logs s2
      = [cache_failure_log "Invalid data URL format";
         miss_log "cat-portrait" ["cat"]]
    ∧ index (cache s2) = ∅
    ∧ disk s2 = ∅.
Proof.
  destruct (findVideo_cache_failure_isolated (H := Sample.platform)
              Sample_remote_generator ["cat"] 3 [] portrait
              Sample.fresh Sample.fresh
              (Video.mk "openai-realistic-cat-1" "https://example.com/cat.png"
                 1080 1920) eq_refl eq_refl) as [_ Hbad].
  apply Hbad. apply matchDataUrl_None. reflexivity.
Defined.

(** C1. Take two successive calls of [findVideo] with the same search
    terms and orientation. Suppose the first returned normally and
    cached its result (the index then holds an entry for the key, under
    a non-empty path), and the second starts no later than [ttl] after
    the entry was created. Then the second call returns normally
    without a single request to the generator; it returns the [id] and
    the [url] the first call returned; that [url] is the [file://] URL
    of the file of the entry, which is on disk; and the second call
    changes no file, so the [url] resolves to the same bytes. *)
Theorem findVideo_second_call_served_from_cache `{Platform}
    (api : OpenAIImagesAPI) (terms : list string) (dur1 dur2 : Q)
    (excl1 excl2 : list string) (o : OrientationEnum)
    (s s1 : State) (v1 : Video.t) (e : CacheEntry.t) :
  let key := cacheKey terms o in
  CachedOpenAIImagesAPI.findVideo api terms dur1 excl1 o s = (Ok v1, s1) →
  index (cache s1) !! key = Some e →
  CacheEntry.filePath e ≠ "" →
  clock s1 (ticks s1) - CacheEntry.createdAt e ≤ CacheEntry.ttl e →
  ∃ v2 s2,
    CachedOpenAIImagesAPI.findVideo api terms dur2 excl2 o s1 = (Ok v2, s2)
    ∧ requests s2 = requests s1
    ∧ Video.id v2 = Video.id v1
    ∧ Video.url v2 = Video.url v1
    ∧ Video.url v2 = "file://" +:+ CacheEntry.filePath e
    ∧ is_Some (disk s1 !! CacheEntry.filePath e)
    ∧ disk s2 = disk s1.
Proof.
  intros key Hrun He Hp Hage.
  destruct (findVideo_cached api terms dur1 excl1 o s v1 s1 e)
    as (Hid & Hurl & Hfile); [done..|].
  eexists _, _. split.
  - apply (findVideo_live _ _ _ _ _ _ e); [|done].
    split; [done|]. split; [by apply not_expired_spec|done].
  - by rewrite Hid, Hurl.
Qed.

(** The theorem at work: two calls for [["cat"]] on a fresh cache. The
    first asks the generator once and stores the picture; the second
    asks nothing and returns the same [id] and [url]. *)
Lemma findVideo_second_call_served_from_cache_witness :
  ∃ s1 v2 s2,
    CachedOpenAIImagesAPI.findVideo (H := Sample.platform)
      Sample_generator ["cat"] 3 [] portrait Sample.fresh
    = (Ok (Video.mk "cat-portrait" "file:///cache/cat-portrait.png"
             1080 1920), s1)
    ∧ length (requests s1) = 1%nat
    ∧ CachedOpenAIImagesAPI.findVideo (H := Sample.platform)
        Sample_generator ["cat"] 3 [] portrait s1 = (Ok v2, s2)
    ∧ requests s2 = requests s1
    ∧ Video.id v2 = "cat-portrait"
    ∧ Video.url v2 = "file:///cache/cat-portrait.png".
Proof.
  set (first := CachedOpenAIImagesAPI.findVideo (H := Sample.platform)
                  Sample_generator ["cat"] 3 [] portrait Sample.fresh).
  assert (Hrun : first
                 = (Ok (Video.mk "cat-portrait"
                          "file:///cache/cat-portrait.png" 1080 1920),
                    first.2)) by (vm_compute; reflexivity).
  destruct (findVideo_second_call_served_from_cache (H := Sample.platform)
              Sample_generator ["cat"] 3 3 [] [] portrait Sample.fresh
              first.2 _
              (CacheEntry.mk "cat-portrait" "/cache/cat-portrait.png" 5000
                 Sample.week) Hrun)
    as (v2 & s2 & Hrun2 & Hreq & Hid & Hurl & _).
  - vm_compute. reflexivity.
  - discriminate.
  - vm_compute. discriminate.
  - exists first.2, v2, s2. split; [exact Hrun|].
    split; [vm_compute; reflexivity|]. split; [exact Hrun2|].
    split; [exact Hreq|]. split; [exact Hid|exact Hurl].
Defined.

(** * Further properties of [FileCache] *)

(** ** [FileCache.delete] *)

(** X1. [delete(id)] never raises. Afterwards the index is the index
    before without [id]. For a key that was not in the index nothing at
    all changes, not even the index document. For a key that was, the
    file of its entry is unlinked and the index document is rewritten
    from the reduced index; no record is logged. *)
Theorem delete_removes_entry `{Platform} (id : string) (s : State) :
  ∃ s',
    FileCache.delete id s = (Ok tt, s')
    ∧ index (cache s') = delete id (index (cache s))
    ∧ (index (cache s) !! id = None → s' = s)
    ∧ (∀ e, index (cache s) !! id = Some e →
            disk s'
            = <[indexPath (cache s)
                  := json_stringify (delete id (index (cache s)))]>
                (delete (CacheEntry.filePath e) (disk s)))
    ∧ logs s' = logs s.
Proof.
  destruct (index (cache s) !! id) as [e|] eqn:He.
  - exists (dropped id (unlinked (CacheEntry.filePath e) s)).
    split; [by apply delete_present|]. split; [done|]. split; [done|].
    split; [|done]. by intros e' [= <-].
  - exists s. split; [by apply delete_absent|].
    split; [by rewrite delete_id|]. done.
Qed.

(** X2. Deleting twice is deleting once: the second [delete] finds no
    entry and touches nothing. *)
Theorem delete_idempotent `{Platform} (id : string) (s : State) :
  (FileCache.delete id >> FileCache.delete id) s = FileCache.delete id s.
Proof.
  unfold bind. destruct (index (cache s) !! id) as [e|] eqn:He.
  - rewrite (delete_present id e) by done. apply delete_absent.
    rewrite index_dropped. apply lookup_delete_eq.
  - by rewrite !delete_absent.
Qed.

(** ** [FileCache.clear] *)

Section Clear.
Context `{Platform}.

Lemma emptied_cons kv l s : emptied (kv :: l) s = emptied l (purged kv s).
Proof. reflexivity. Qed.

Lemma clear_loop (l : list (string * CacheEntry.t)) s :
  NoDup l.*1 →
  (∀ id e, (id, e) ∈ l → index (cache s) !! id = Some e) →
  for_of l (fun '(id, _) _ => FileCache.delete id) tt s
  = (Ok tt, emptied l s).
Proof.
  revert s. induction l as [|[id e] l IH]; intros s Hnd Hin; [done|].
  rewrite fmap_cons in Hnd. apply NoDup_cons in Hnd as [Hid Hnd].
  rewrite emptied_cons. simpl for_of. unfold bind at 1.
  rewrite (delete_present id e) by (apply Hin; left).
  apply IH; [done|]. intros id' e' Hl.
  unfold purged. rewrite index_dropped. simpl.
  rewrite lookup_delete_ne; [apply Hin; by right|].
  intros <-. apply Hid. by apply (list_elem_of_fmap_2 fst _ (id, e')).
Qed.

Lemma emptied_logs l s : logs (emptied l s) = logs s.
Proof.
  revert s. induction l as [|kv l IH]; intros s; [done|].
  by rewrite emptied_cons, IH.
Qed.

Lemma emptied_index_absent l s id :
  index (cache s) !! id = None →
  index (cache (emptied l s)) !! id = None.
Proof.
  revert s. induction l as [|kv l IH]; intros s Hs; [done|].
  rewrite emptied_cons. apply IH.
  unfold purged. rewrite index_dropped. simpl.
  destruct (decide (kv.1 = id)) as [->|Hne].
  - apply lookup_delete_eq.
  - by rewrite lookup_delete_ne.
Qed.

Lemma emptied_index_gone l s id e :
  (id, e) ∈ l → index (cache (emptied l s)) !! id = None.
Proof.
  revert s. induction l as [|kv l IH]; intros s Hl.
  - by apply elem_of_nil in Hl.
  - rewrite emptied_cons. apply elem_of_cons in Hl as [<-|Hl]; [|by apply IH].
    apply emptied_index_absent.
    unfold purged. rewrite index_dropped. apply lookup_delete_eq.
Qed.

Lemma emptied_indexPath l s :
  indexPath (cache (emptied l s)) = indexPath (cache s).
Proof.
  revert s. induction l as [|kv l IH]; intros s; [done|].
  by rewrite emptied_cons, IH.
Qed.

Lemma emptied_disk_absent l s p :
  p ≠ indexPath (cache s) →
  disk s !! p = None →
  disk (emptied l s) !! p = None.
Proof.
  revert s. induction l as [|kv l IH]; intros s Hp Hs; [done|].
  rewrite emptied_cons. apply IH; [done|].
  unfold purged. rewrite disk_dropped. simpl.
  rewrite lookup_insert_ne by done.
  destruct (decide (CacheEntry.filePath kv.2 = p)) as [->|Hne].
  - apply lookup_delete_eq.
  - by rewrite lookup_delete_ne.
Qed.

Lemma emptied_disk_gone l s id e :
  (id, e) ∈ l →
  CacheEntry.filePath e ≠ indexPath (cache s) →
  disk (emptied l s) !! CacheEntry.filePath e = None.
Proof.
  revert s. induction l as [|kv l IH]; intros s Hl Hp.
  - by apply elem_of_nil in Hl.
  - rewrite emptied_cons. apply elem_of_cons in Hl as [<-|Hl]; [|by apply IH].
    apply emptied_disk_absent; [done|].
    unfold purged. rewrite disk_dropped. simpl.
    rewrite lookup_insert_ne by done. apply lookup_delete_eq.
Qed.

Lemma emptied_disk_other l s p :
  p ≠ indexPath (cache s) →
  (∀ id e, (id, e) ∈ l → CacheEntry.filePath e ≠ p) →
  disk (emptied l s) !! p = disk s !! p.
Proof.
  revert s. induction l as [|[id' e'] l IH]; intros s Hp Hl; [done|].
  rewrite emptied_cons, IH; [|done|intros id e He; apply (Hl id e); by right].
  unfold purged. rewrite disk_dropped. simpl.
  rewrite lookup_insert_ne by done.
  apply lookup_delete_ne. apply (Hl id' e'). left.
Qed.

(** The index document is written last. *)
Lemma emptied_disk_index l s :
  l ≠ [] →
  disk (emptied l s) !! indexPath (cache s)
  = Some (json_stringify (index (cache (emptied l s)))).
Proof.
  revert s. induction l as [|kv l IH]; intros s Hl; [done|].
  rewrite emptied_cons. destruct l as [|kv' l].
  - exact (dropped_persisted kv.1 (unlinked (CacheEntry.filePath kv.2) s)).
  - exact (IH (purged kv s) ltac:(done)).
Qed.

Lemma clear_eq s :
  FileCache.clear s
  = (Ok tt, logged clear_report (emptied (map_to_list (index (cache s))) s)).
Proof.
  unfold FileCache.clear, bind at 1, this. unfold bind at 1.
  rewrite clear_loop.
  - reflexivity.
  - apply NoDup_fst_map_to_list.
  - intros id e. by rewrite elem_of_map_to_list.
Qed.

Lemma clear_index s :
  index (cache (emptied (map_to_list (index (cache s))) s)) = ∅.
Proof.
  apply map_eq. intros k. rewrite lookup_empty.
  destruct (index (cache s) !! k) as [e|] eqn:He.
  - apply (emptied_index_gone _ _ k e). by apply elem_of_map_to_list.
  - by apply emptied_index_absent.
Qed.

End Clear.

(** X3. [clear] never raises and leaves the index empty. The file of
    every entry is unlinked (the index document apart, should an entry
    point at it); a file that no entry points at is left as it is. If
    there was an entry, the index document on disk is then that of the
    empty index; if there was none, the disk is not written at all. One
    record is logged. *)
Theorem clear_empties_cache `{Platform} (s : State) :
  ∃ s',
    FileCache.clear s = (Ok tt, s')
    ∧ index (cache s') = ∅
    ∧ (∀ id e, index (cache s) !! id = Some e →
               CacheEntry.filePath e ≠ indexPath (cache s) →
               disk s' !! CacheEntry.filePath e = None)
    ∧ (∀ p, p ≠ indexPath (cache s) →
            (∀ id e, index (cache s) !! id = Some e →
                     CacheEntry.filePath e ≠ p) →
            disk s' !! p = disk s !! p)
    ∧ (index (cache s) ≠ ∅ →
       disk s' !! indexPath (cache s) = Some (json_stringify ∅))
    ∧ (index (cache s) = ∅ → disk s' = disk s)
    ∧ logs s' = clear_report :: logs s.
Proof.
  eexists. split; [apply clear_eq|]. simpl.
  split; [apply clear_index|]. split; [|split; [|split; [|split]]].
  - intros id e He Hp. apply (emptied_disk_gone _ _ id e); [|done].
    by apply elem_of_map_to_list.
  - intros p Hp Hother. apply emptied_disk_other; [done|].
    intros id e He. apply (Hother id). by apply elem_of_map_to_list.
  - intros Hne. rewrite emptied_disk_index, clear_index; [done|].
    intros Hnil. by apply map_to_list_empty_iff in Hnil.
  - intros Hemp. rewrite Hemp. by rewrite map_to_list_empty.
  - by rewrite emptied_logs.
Qed.

(** ** [FileCache.setFromDataUrl] on a well-formed data URL *)

(** X4. For a data URL [data:image/<format>;base64,<payload>] the call
    returns the path [<cacheDir>/<md5 of id>.<format>]. It writes the
    decoded payload there, reads the clock once, records under [id] an
    entry with that path, the time read and the [ttl] given (the
    default one when [ttl] is missing or 0), and rewrites the index
    document from the new index. *)
Theorem setFromDataUrl_stores_entry `{Platform}
    (id format payload : string) (ttl : option Z) (s : State) :
  format ≠ "" →
  Str.forallb is_word_char format = true →
  payload ≠ "" →
  has_line_terminator payload = false →
  let p := path_join (cacheDir (cache s)) (md5_hex id +:+ "." +:+ format) in
  let t := match ttl with
           | Some 0 | None => defaultTTL (cache s)
           | Some t => t
           end in
  ∃ s',
    FileCache.setFromDataUrl id
      ("data:image/" +:+ format +:+ ";base64," +:+ payload) ttl s
    = (Ok p, s')
    ∧ index (cache s')
      = <[id := CacheEntry.mk id p (clock s (ticks s)) t]> (index (cache s))
    ∧ disk s'
      = <[indexPath (cache s) := json_stringify (index (cache s'))]>
          (<[p := base64_decode payload]> (disk s))
    ∧ ticks s' = S (ticks s).
Proof.
  intros Hf Hw Hd Hl p t.
  exists (stored id format payload ttl s). split.
  - apply setFromDataUrl_stores. by apply matchDataUrl_Some.
  - split; [|done]. simpl. unfold new_entry, blob_path. do 2 f_equal.
    by destruct ttl as [[]|].
Qed.

Lemma setFromDataUrl_stores_entry_witness :
  ∃ s',
    FileCache.setFromDataUrl (H := Sample.platform) "owl-portrait"
      "data:image/webp;base64,T1dM" (Some 0) Sample.one_live
    = (Ok "/cache/owl-portrait.webp", s')
    ∧ index (cache s') !! "owl-portrait"
      = Some (CacheEntry.mk "owl-portrait" "/cache/owl-portrait.webp" 5000
                Sample.week)
    ∧ disk s' !! "/cache/owl-portrait.webp"
      = Some (list_byte_of_string "T1dM").
Proof.
  destruct (setFromDataUrl_stores_entry (H := Sample.platform)
              "owl-portrait" "webp" "T1dM" (Some 0) Sample.one_live)
    as (s' & Hrun & Hix & Hdisk & _);
    [discriminate|reflexivity|discriminate|reflexivity|].
  exists s'. split; [exact Hrun|]. split.
  - rewrite Hix. apply lookup_insert_eq.
  - rewrite Hdisk. rewrite lookup_insert_ne by discriminate.
    apply lookup_insert_eq.
Defined.

(** X5. [setFromDataUrl] never removes anything: whatever its
    arguments, and whether it returns or raises, a file that was on
    disk is still on disk afterwards, and the records of the other keys
    are as they were. In particular, storing new content under a key
    does not unlink the file the key pointed at before. *)
Theorem setFromDataUrl_removes_nothing `{Platform}
    (id dataUrl : string) (ttl : option Z) (s : State) :
  let s' := (FileCache.setFromDataUrl id dataUrl ttl s).2 in
  (∀ p, is_Some (disk s !! p) → is_Some (disk s' !! p))
  ∧ (∀ k, k ≠ id → index (cache s') !! k = index (cache s) !! k).
Proof.
  destruct (matchDataUrl dataUrl) as [[format payload]|] eqn:Hm.
  - rewrite (setFromDataUrl_stores id dataUrl format payload) by done.
    simpl. split.
    + intros p Hp.
      destruct (decide (indexPath (cache s) = p)) as [<-|Hne1];
        [rewrite lookup_insert_eq; eauto|].
      rewrite lookup_insert_ne by done.
      destruct (decide (blob_path id format s = p)) as [<-|Hne2];
        [rewrite lookup_insert_eq; eauto|].
      by rewrite lookup_insert_ne.
    + intros k Hk. by rewrite lookup_insert_ne.
  - unfold FileCache.setFromDataUrl. rewrite Hm. simpl. done.
Qed.

(** Storing a picture again under another media subtype leaves the
    first file behind: the index points at the new file only. *)
Example setFromDataUrl_orphans_old_file :
  let s1 := (FileCache.setFromDataUrl (H := Sample.platform) "cat"
               "data:image/png;base64,AAAA" None Sample.fresh).2 in
  let s2 := (FileCache.setFromDataUrl (H := Sample.platform) "cat"
               "data:image/jpeg;base64,BBBB" None s1).2 in
  (CacheEntry.filePath <$> index (cache s2) !! "cat") = Some "/cache/cat.jpeg"
  ∧ is_Some (disk s2 !! "/cache/cat.png")
  ∧ size (index (cache s2)) = 1%nat.
Proof. split; [|split]; vm_compute; eauto. Qed.

(** ** Writing, then reading *)

(** X6. What [setFromDataUrl] stores can be read back. If the clock,
    read again, is no more than the entry's [ttl] past the time of the
    write, then [get] returns the very path [setFromDataUrl] returned,
    [getFileUrl] returns it behind [file://], and [getDataUrl] returns
    the stored bytes, encoded (the last two for a non-empty path, and
    the last for a path that is not the index document). *)
Theorem setFromDataUrl_then_read `{Platform}
    (id format payload : string) (ttl : option Z) (s : State) :
  format ≠ "" →
  Str.forallb is_word_char format = true →
  payload ≠ "" →
  has_line_terminator payload = false →
  clock s (S (ticks s)) - clock s (ticks s)
    ≤ number_or ttl (defaultTTL (cache s)) →
  ∃ p s1 s2,
    FileCache.setFromDataUrl id
      ("data:image/" +:+ format +:+ ";base64," +:+ payload) ttl s
    = (Ok p, s1)
    ∧ FileCache.has id s1 = (Ok true, s2)
    ∧ FileCache.get id s1 = (Ok (Some p), s2)
    ∧ (p ≠ "" →
       FileCache.getFileUrl id s1 = (Ok (Some ("file://" +:+ p)), s2))
    ∧ (p ≠ "" → p ≠ indexPath (cache s) →
       FileCache.getDataUrl id s1
       = (Ok (Some ("data:image/png;base64,"
                    +:+ base64_encode (base64_decode payload))), s2)).
Proof.
  intros Hf Hw Hd Hl Hage.
  exists (blob_path id format s), (stored id format payload ttl s),
    (ticked (stored id format payload ttl s)).
  assert (Hlive : live (clock (stored id format payload ttl s)
                          (ticks (stored id format payload ttl s)))
                    (stored id format payload ttl s) id
                    (new_entry id format ttl s)).
  { split; [apply lookup_insert_eq|]. split; [by apply not_expired_spec|].
    simpl. destruct (decide (indexPath (cache s) = blob_path id format s))
      as [->|Hne].
    - rewrite lookup_insert_eq. eauto.
    - rewrite lookup_insert_ne by done. rewrite lookup_insert_eq. eauto. }
  split; [apply setFromDataUrl_stores; by apply matchDataUrl_Some|].
  split; [by apply (has_live id (new_entry id format ttl s))|].
  split; [by apply (get_live id (new_entry id format ttl s))|].
  split.
  - intros Hp. by apply (getFileUrl_live id (new_entry id format ttl s)).
  - intros Hp Hip.
    apply (getDataUrl_live id (new_entry id format ttl s)); try done.
    + apply lookup_insert_eq.
    + by apply not_expired_spec.
    + simpl. rewrite lookup_insert_ne by done. apply lookup_insert_eq.
Qed.

Lemma setFromDataUrl_then_read_witness :
  ∃ s1 s2,
    FileCache.setFromDataUrl (H := Sample.platform) "owl-portrait"
      "data:image/gif;base64,T1dM" None Sample.fresh
    = (Ok "/cache/owl-portrait.gif", s1)
    ∧ FileCache.get (H := Sample.platform) "owl-portrait" s1
      = (Ok (Some "/cache/owl-portrait.gif"), s2)
    ∧ FileCache.getFileUrl (H := Sample.platform) "owl-portrait" s1
      = (Ok (Some "file:///cache/owl-portrait.gif"), s2).
Proof.
  destruct (setFromDataUrl_then_read (H := Sample.platform)
              "owl-portrait" "gif" "T1dM" None Sample.fresh)
    as (p & s1 & s2 & Hset & _ & Hget & Hurl & _);
    [discriminate|reflexivity|discriminate|reflexivity
    |vm_compute; discriminate|].
  assert (Hp : p = "/cache/owl-portrait.gif").
  { apply (f_equal fst) in Hset. vm_compute in Hset. congruence. }
  subst p. exists s1, s2. split; [exact Hset|]. split; [exact Hget|].
  apply Hurl. discriminate.
Defined.

(** ** Reading a key that is not live *)

(** X7. A purge happens once. When [has] has answered [false], asking
    again answers [false] and changes nothing: no clock reading, no
    write of the index document. *)
Theorem has_false_is_stable `{Platform} (id : string) (s s' : State) :
  FileCache.has id s = (Ok false, s') →
  FileCache.has id s' = (Ok false, s').
Proof.
  intros Hhas. apply has_absent.
  destruct (index (cache s) !! id) as [e|] eqn:He.
  - destruct (expired (clock s (ticks s)) e) eqn:Hx.
    + rewrite (has_expired id e) in Hhas by done.
      injection Hhas as <-. rewrite index_dropped. apply lookup_delete_eq.
    + destruct (disk s !! CacheEntry.filePath e) as [b|] eqn:Hd.
      * rewrite (has_live id e) in Hhas; [done|].
        split; [done|]. split; [done|]. rewrite Hd. eauto.
      * rewrite (has_missing id e) in Hhas by done.
        injection Hhas as <-. rewrite index_dropped. apply lookup_delete_eq.
  - rewrite has_absent in Hhas by done. by injection Hhas as <-.
Qed.

Lemma has_false_is_stable_witness :
  ∃ s',
    FileCache.has (H := Sample.platform) "dog-portrait" Sample.one_expired
    = (Ok false, s')
    ∧ FileCache.has (H := Sample.platform) "dog-portrait" s' = (Ok false, s').
Proof.
  eexists. split; [reflexivity|].
  apply (has_false_is_stable (H := Sample.platform) "dog-portrait"
           Sample.one_expired).
  reflexivity.
Defined.

(** X8. [get] and [getFileUrl] never raise: the entry [get] reads after
    [has] has answered [true] is always there. [get] returns the path
    of the entry exactly when the entry is live, and [null] otherwise;
    [getFileUrl] returns that path behind [file://], and [null] also
    for a live entry whose path is empty. *)
Theorem get_returns_live_path `{Platform} (id : string) (s : State) :
  let now := clock s (ticks s) in
  ∃ r s',
    FileCache.get id s = (Ok r, s')
    ∧ (∀ p, r = Some p
            ↔ ∃ e, live now s id e ∧ p = CacheEntry.filePath e)
    ∧ FileCache.getFileUrl id s
      = (Ok (match r with
             | Some p => if String.eqb p "" then None
                         else Some ("file://" +:+ p)
             | None => None
             end), s').
Proof.
  intros now.
  assert (Hdead : ∀ s', FileCache.has id s = (Ok false, s') →
                        ¬ ∃ e, live now s id e).
  { intros s' Hhas (e & Hlive). by rewrite (has_live id e) in Hhas. }
  assert (Hcase : (∃ e, live now s id e)
                  ∨ ∃ s', FileCache.has id s = (Ok false, s')).
  { destruct (index (cache s) !! id) as [e|] eqn:He.
    - destruct (expired now e) eqn:Hx.
      + right. eexists. by apply (has_expired id e).
      + destruct (disk s !! CacheEntry.filePath e) as [b|] eqn:Hd.
        * left. exists e. split; [done|]. split; [done|]. rewrite Hd. eauto.
        * right. eexists. by apply (has_missing id e).
    - right. eexists. by apply has_absent. }
  destruct Hcase as [(e & Hlive)|(s' & Hhas)].
  - exists (Some (CacheEntry.filePath e)), (ticked s).
    split; [by apply get_live|]. split.
    + intros p. split.
      * intros [= <-]. by exists e.
      * intros (e' & (He' & _) & ->). destruct Hlive as (He & _).
        congruence.
    + unfold FileCache.getFileUrl, bind. rewrite (get_live id e) by done.
      unfold truthy. by destruct (String.eqb _ _).
  - exists None, s'. split; [by apply get_dead|]. split.
    + intros p. split; [done|].
      intros (e & Hlive & _). destruct (Hdead s' Hhas). by exists e.
    + by apply getFileUrl_dead.
Qed.

(** X9. [getDataUrl] and [getFileUrl] decide alike: on every state and
    key they leave the same state behind, and one returns [null]
    exactly when the other does. [getDataUrl] never raises. *)
Theorem getDataUrl_agrees_with_getFileUrl `{Platform}
    (id : string) (s : State) :
  ∃ data file s',
    FileCache.getDataUrl id s = (Ok data, s')
    ∧ FileCache.getFileUrl id s = (Ok file, s')
    ∧ (data = None ↔ file = None).
Proof.
  destruct (getFileUrl_cases id s)
    as [(e & Hlive & Hp & Hget)|(s' & Hget & _ & _)].
  - destruct Hlive as (He & Hx & [b Hb]).
    exists (Some ("data:image/png;base64," +:+ base64_encode b)),
      (Some ("file://" +:+ CacheEntry.filePath e)), (ticked s).
    split; [by apply (getDataUrl_live id e)|]. split; [done|]. done.
  - exists None, None, s'. split; [|done].
    unfold FileCache.getFileUrl, bind in Hget.
    unfold FileCache.getDataUrl, bind.
    destruct (FileCache.get id s) as [[r|err] s0]; [|done].
    destruct (truthy r); [done|]. done.
Qed.

(** ** [FileCache.cleanup] with nothing to do *)

(** X10. When no entry of the index has outlived its [ttl], [cleanup]
    writes nothing: neither a file nor the index document. It reads the
    clock and logs a count of 0. Entries whose file is missing stay in
    the index: unlike [has], [cleanup] does not look at the files. *)
Theorem cleanup_without_expired_entries `{Platform} (s : State) :
  (∀ id e, index (cache s) !! id = Some e →
           clock s (ticks s) - CacheEntry.createdAt e ≤ CacheEntry.ttl e) →
  FileCache.cleanup s = (Ok tt, logged (cleanup_report 0) (ticked s)).
Proof.
  intros Hyoung. rewrite cleanup_eq. simpl.
  assert (Hx : ∀ id e, index (cache s) !! id = Some e →
                       expired (clock s (ticks s)) e = false).
  { intros id e He. apply not_expired_spec. by apply (Hyoung id). }
  rewrite swept_none.
  - by rewrite old_entries_none, map_size_empty.
  - intros id e He. apply (Hx id). by apply elem_of_map_to_list.
Qed.

Lemma cleanup_without_expired_entries_witness :
  FileCache.cleanup (H := Sample.platform) Sample.one_missing
  = (Ok tt, logged (cleanup_report 0) (ticked Sample.one_missing))
  ∧ is_Some (index (cache (ticked Sample.one_missing)) !! "owl-portrait").
Proof.
  split; [|vm_compute; eauto].
  apply (cleanup_without_expired_entries (H := Sample.platform)).
  intros id e He. unfold Sample.one_missing in He. simpl in He.
  apply lookup_singleton_Some in He as [_ <-]. vm_compute. discriminate.
Defined.

(** * Further properties of [CachedOpenAIImagesAPI] *)

Section Wrapper.
Context `{Platform}.

Lemma getStats_empty s :
  index (cache s) = ∅ → FileCache.getStats s = (Ok (Stats.mk 0 0), s).
Proof.
  intros Hemp. unfold FileCache.getStats, bind, this.
  rewrite getStats_loop, Hemp, map_to_list_empty, map_size_empty.
  reflexivity.
Qed.

(** After a miss, whatever happens next, the request is on the trace,
    once. *)
Lemma findVideo_miss_requests api terms dur excl o s s1 :
  FileCache.getFileUrl (cacheKey terms o) s = (Ok None, s1) →
  requests (CachedOpenAIImagesAPI.findVideo api terms dur excl o s).2
  = mkRequest terms dur excl o :: requests s1.
Proof.
  intros Hget. rewrite (findVideo_miss _ _ _ _ _ _ s1) by done.
  destruct (api _ _) as [result|err]; [|done].
  destruct (FileCache.setFromDataUrl _ _ _ _) as [[q|err] s2] eqn:Hset.
  - assert (Hs2 : requests s2
                  = mkRequest terms dur excl o :: requests s1).
    { destruct (matchDataUrl (Video.url result)) as [[f d]|] eqn:Hm.
      - rewrite (setFromDataUrl_stores _ _ f d) in Hset by done.
        by injection Hset as <- <-.
      - unfold FileCache.setFromDataUrl in Hset. by rewrite Hm in Hset. }
    destruct (getFileUrl_cases (cacheKey terms o) s2)
      as [(e2 & _ & _ & Hget2)|(s3 & Hget2 & Hreq & _)]; rewrite Hget2.
    + by rewrite truthy_file_url.
    + simpl. by rewrite Hreq.
  - by apply setFromDataUrl_Throw in Hset as (_ & _ & ->).
Qed.

End Wrapper.

(** X11. A live entry is served from the cache without the generator.
    The asset returned carries the cache key as [id], the [file://] URL
    of the entry's file as [url], and the dimensions of the
    orientation asked for: 1080 by 1920 for portrait, 1920 by 1080 for
    landscape. No request is made, no file and no record of the index
    changes, and one record is logged. *)
Theorem findVideo_serves_live_entry `{Platform} (api : OpenAIImagesAPI)
    (terms : list string) (dur : Q) (excl : list string)
    (o : OrientationEnum) (s : State) (e : CacheEntry.t) :
  let key := cacheKey terms o in
  live (clock s (ticks s)) s key e →
  CacheEntry.filePath e ≠ "" →
  ∃ v s',
    CachedOpenAIImagesAPI.findVideo api terms dur excl o s = (Ok v, s')
    ∧ Video.id v = key
    ∧ Video.url v = "file://" +:+ CacheEntry.filePath e
    ∧ (Video.width v, Video.height v)
      = match o with portrait => (1080, 1920) | landscape => (1920, 1080) end
    ∧ requests s' = requests s
    ∧ disk s' = disk s
    ∧ index (cache s') = index (cache s)
    ∧ logs s' = hit_log key (Video.url v) :: logs s.
Proof.
  intros key Hlive Hp. eexists _, _.
  split; [by apply (findVideo_live _ _ _ _ _ _ e)|].
  simpl. by destruct o.
Qed.

Lemma findVideo_serves_live_entry_witness :
  ∃ s',
    CachedOpenAIImagesAPI.findVideo (H := Sample.platform)
      Sample_failing_generator ["Cat!"] 3 [] portrait Sample.one_live
    = (Ok (Video.mk "cat-portrait" "file:///cache/cat.png" 1080 1920), s')
    ∧ requests s' = [].
Proof.
  destruct (findVideo_serves_live_entry (H := Sample.platform)
              Sample_failing_generator ["Cat!"] 3 [] portrait
              Sample.one_live Sample.cat)
    as (v & s' & Hrun & Hid & Hurl & Hdim & Hreq & _).
  - split; [reflexivity|]. split; [reflexivity|]. vm_compute. eauto.
  - discriminate.
  - exists s'. split; [|exact Hreq]. rewrite Hrun. f_equal.
    destruct v as [i u w h]. simpl in *. by injection Hdim as -> ->; subst.
Defined.

(** X12. An error of the generator is the error of [findVideo]: on a
    miss, when the generator raises, [findVideo] raises the same error.
    Nothing is stored: the index and the disk are as the miss left
    them. The request is on the trace and the miss is logged. *)
Theorem findVideo_generator_error_propagates `{Platform}
    (api : OpenAIImagesAPI) (terms : list string) (dur : Q)
    (excl : list string) (o : OrientationEnum) (s s1 : State) (e : Error) :
  let key := cacheKey terms o in
  let req := mkRequest terms dur excl o in
  FileCache.getFileUrl key s = (Ok None, s1) →
  api (length (requests s1)) req = Throw e →
  ∃ s2,
    CachedOpenAIImagesAPI.findVideo api terms dur excl o s = (Throw e, s2)
    ∧ index (cache s2) = index (cache s1)
    ∧ disk s2 = disk s1
    ∧ requests s2 = req :: requests s1
    ∧ logs s2 = miss_log key terms :: logs s1.
Proof.
  intros key req Hget Hapi. exists (asked req s1).
  split; [by apply findVideo_generator_fails|done].
Qed.

Lemma findVideo_generator_error_propagates_witness :
  ∃ s2,
    CachedOpenAIImagesAPI.findVideo (H := Sample.platform)
      Sample_failing_generator ["cat"] 3 [] portrait Sample.fresh
    = (Throw "OpenAI API error: 500", s2)
    ∧ index (cache s2) = ∅
    ∧ disk s2 = ∅
    ∧ length (requests s2) = 1%nat.
Proof.
  destruct (findVideo_generator_error_propagates (H := Sample.platform)
              Sample_failing_generator ["cat"] 3 [] portrait
              Sample.fresh Sample.fresh "OpenAI API error: 500"
              eq_refl eq_refl)
    as (s2 & Hrun & Hix & Hdisk & Hreq & _).
  exists s2. split; [exact Hrun|]. split; [exact Hix|].
  split; [exact Hdisk|]. by rewrite Hreq.
Defined.

(** X13. On a miss for which the generator answers with a data URL
    [data:image/<format>;base64,<payload>], and with the clock, read
    again, within the default time-to-live, [findVideo] stores the
    picture and returns it from the cache: the asset has the cache key
    as [id] (the [id] of the generator is dropped), the [file://] URL
    of the new file as [url], and the width and height the generator
    gave. The index holds the entry, with the default time-to-live, and
    the file holds the decoded payload. *)
Theorem findVideo_miss_stores_answer `{Platform} (api : OpenAIImagesAPI)
    (terms : list string) (dur : Q) (excl : list string)
    (o : OrientationEnum) (s s1 : State) (result : Video.t)
    (format payload : string) :
  let key := cacheKey terms o in
  let req := mkRequest terms dur excl o in
  let p := path_join (cacheDir (cache s1)) (md5_hex key +:+ "." +:+ format) in
  FileCache.getFileUrl key s = (Ok None, s1) →
  api (length (requests s1)) req = Ok result →
  Video.url result = "data:image/" +:+ format +:+ ";base64," +:+ payload →
  format ≠ "" →
  Str.forallb is_word_char format = true →
  payload ≠ "" →
  has_line_terminator payload = false →
  p ≠ "" →
  clock s1 (S (ticks s1)) - clock s1 (ticks s1) ≤ defaultTTL (cache s1) →
  ∃ s2,
    CachedOpenAIImagesAPI.findVideo api terms dur excl o s
    = (Ok (Video.mk key ("file://" +:+ p)
             (Video.width result) (Video.height result)), s2)
    ∧ index (cache s2) !! key
      = Some (CacheEntry.mk key p (clock s1 (ticks s1))
                (defaultTTL (cache s1)))
    ∧ (p ≠ indexPath (cache s1) →
       disk s2 !! p = Some (base64_decode payload))
    ∧ requests s2 = req :: requests s1.
Proof.
  intros key req p Hget Hapi Hurl Hf Hw Hd Hl Hp Hage.
  set (s2 := stored key format payload None (asked req s1)).
  assert (Hset : FileCache.setFromDataUrl key (Video.url result) None
                   (asked req s1) = (Ok p, s2)).
  { rewrite Hurl.
    rewrite (setFromDataUrl_stores key _ format payload)
      by (by apply matchDataUrl_Some).
    reflexivity. }
  assert (Hlive : live (clock s2 (ticks s2)) s2 key
                    (new_entry key format None (asked req s1))).
  { split; [apply lookup_insert_eq|]. split; [by apply not_expired_spec|].
    simpl. destruct (decide (indexPath (cache s1) = p)) as [->|Hne].
    - rewrite lookup_insert_eq. eauto.
    - rewrite lookup_insert_ne by done.
      unfold blob_path. simpl. fold p. rewrite lookup_insert_eq. eauto. }
  exists (ticked s2). split.
  - apply (findVideo_miss_cached _ _ _ _ _ _ s1 result p s2); try done.
    by apply (getFileUrl_live key (new_entry key format None (asked req s1))).
  - split; [apply lookup_insert_eq|]. split; [|done].
    intros Hip. simpl. rewrite lookup_insert_ne by done.
    apply lookup_insert_eq.
Qed.

Lemma findVideo_miss_stores_answer_witness :
  ∃ s2,
    CachedOpenAIImagesAPI.findVideo (H := Sample.platform)
      Sample_generator ["Cat!"] 3 [] landscape Sample.fresh
    = (Ok (Video.mk "cat-landscape" "file:///cache/cat-landscape.png"
             1080 1920), s2)
    ∧ disk s2 !! "/cache/cat-landscape.png"
      = Some (list_byte_of_string "Q0FU").
Proof.
  destruct (findVideo_miss_stores_answer (H := Sample.platform)
              Sample_generator ["Cat!"] 3 [] landscape
              Sample.fresh Sample.fresh
              (Video.mk "openai-realistic-cat-1"
                 "data:image/png;base64,Q0FU" 1080 1920)
              "png" "Q0FU" eq_refl eq_refl eq_refl)
    as (s2 & Hrun & _ & Hdisk & _);
    [discriminate|reflexivity|discriminate|reflexivity|discriminate
    |vm_compute; discriminate|].
  exists s2. split; [exact Hrun|]. apply Hdisk. discriminate.
Defined.

(** X14. One call of [findVideo] sends at most one request to the
    generator, and none exactly when the key has a live entry with a
    non-empty path: an entry that is absent, expired or without its
    file costs one request, however the call ends. *)
Theorem findVideo_asks_at_most_once `{Platform} (api : OpenAIImagesAPI)
    (terms : list string) (dur : Q) (excl : list string)
    (o : OrientationEnum) (s : State) :
  let key := cacheKey terms o in
  let s' := (CachedOpenAIImagesAPI.findVideo api terms dur excl o s).2 in
  let served :=
    ∃ e, live (clock s (ticks s)) s key e ∧ CacheEntry.filePath e ≠ "" in
  (served ∧ requests s' = requests s)
  ∨ (¬ served ∧ requests s' = mkRequest terms dur excl o :: requests s).
Proof.
  intros key s' served.
  destruct (getFileUrl_cases key s)
    as [(e & Hlive & Hp & Hget)|(s1 & Hget & Hreq & Hnone)].
  - left. split; [by exists e|]. unfold s'.
    by rewrite (findVideo_live _ _ _ _ _ _ e).
  - right. split.
    + intros (e & Hlive & Hp).
      rewrite (getFileUrl_live key e) in Hget by done. done.
    + unfold s'. rewrite (findVideo_miss_requests _ _ _ _ _ _ s1) by done.
      by rewrite Hreq.
Qed.

(** X15. [clear], then [findVideo]: after the cache has been cleared
    every key is a miss, so the next call for any search terms sends
    its request to the generator. *)
Theorem clear_then_findVideo_asks `{Platform} (api : OpenAIImagesAPI)
    (terms : list string) (dur : Q) (excl : list string)
    (o : OrientationEnum) (s : State) :
  ∃ s1,
    CachedOpenAIImagesAPI.clear s = (Ok tt, s1)
    ∧ requests (CachedOpenAIImagesAPI.findVideo api terms dur excl o s1).2
      = mkRequest terms dur excl o :: requests s.
Proof.
  eexists. split; [apply clear_eq|].
  rewrite (findVideo_miss_requests _ _ _ _ _ _
             (logged clear_report
                (emptied (map_to_list (index (cache s))) s))).
  - simpl. clear. generalize (map_to_list (index (cache s))).
    intros l. revert s. induction l as [|kv l IH]; intros s; [done|].
    rewrite emptied_cons. by rewrite IH.
  - apply getFileUrl_dead, has_absent. simpl.
    rewrite clear_index. apply lookup_empty.
Qed.

(** X16. [clear], then [getStats]: a cleared cache counts no entry and
    no byte. *)
Theorem clear_then_getStats_is_zero `{Platform} (s : State) :
  ∃ s1,
    (CachedOpenAIImagesAPI.clear >> CachedOpenAIImagesAPI.getStats) s
    = (Ok (Stats.mk 0 0), s1)
    ∧ CachedOpenAIImagesAPI.clear s = (Ok tt, s1).
Proof.
  eexists. split; [|apply clear_eq].
  unfold bind, CachedOpenAIImagesAPI.clear, CachedOpenAIImagesAPI.getStats.
  rewrite clear_eq. apply getStats_empty. simpl. apply clear_index.
Qed.

(** ** The alphabet of keys *)

Section KeyAlphabet.

Lemma lower_safe_fixed c : is_safe_char c = true → Str.lower c = c.
Proof. destruct c as [[] [] [] [] [] [] [] []]; vm_compute; congruence. Qed.

Lemma safe_is_key_char c : is_safe_char c = true → is_key_char c = true.
Proof. destruct c as [[] [] [] [] [] [] [] []]; vm_compute; congruence. Qed.

Lemma sanitize_safe_fixed s :
  Str.forallb is_safe_char s = true → sanitize s = s.
Proof.
  unfold sanitize, Str.toLowerCase.
  induction s as [|c s IH]; simpl; [done|].
  intros [Hc Hs]%andb_true_iff.
  rewrite safe_is_key_char by done. simpl.
  by rewrite lower_safe_fixed, IH.
Qed.

End KeyAlphabet.

(** X17. Every key consists of lower-case ASCII letters, digits and
    hyphens only, whatever the search terms hold, and deriving a key
    from the text of a key changes nothing. *)
Theorem cacheKey_alphabet (terms : list string) (o : OrientationEnum) :
  Str.forallb is_safe_char (cacheKey terms o) = true
  ∧ sanitize (cacheKey terms o) = cacheKey terms o
  ∧ cacheKey [cacheKey terms o] o
    = cacheKey terms o +:+ "-" +:+ orientation_tag o.
Proof.
  assert (Hsafe : Str.forallb is_safe_char (cacheKey terms o) = true)
    by apply sanitize_alphabet.
  split; [done|]. split; [by apply sanitize_safe_fixed|].
  rewrite cacheKey_split. simpl Str.join.
  by rewrite sanitize_safe_fixed.
Qed.

(** * The image generator *)

(** ** [getPrompt] *)

Example getPrompt_neon :
  getPrompt neon "spooky playground" 1080 1920 None
  = "spooky playground" +:+ template_body neon +:+ "1080x1920. "
    +:+ NEGATIVE_PROMPT.
Proof. reflexivity. Qed.

Section Replace.

Lemma append_assoc (a b c : string) : (a +:+ b) +:+ c = a +:+ b +:+ c.
Proof.
  induction a as [|x a IH]; [done|].
  change (String x ((a +:+ b) +:+ c) = String x (a +:+ b +:+ c)).
  by rewrite IH.
Qed.

Lemma append_nil_r (a : string) : a +:+ "" = a.
Proof.
  induction a as [|x a IH]; [done|].
  change (String x (a +:+ "") = String x a). by rewrite IH.
Qed.

Lemma forallb_append p (a b : string) :
  Str.forallb p (a +:+ b) = Str.forallb p a && Str.forallb p b.
Proof.
  induction a as [|x a IH]; [done|].
  change (p x && Str.forallb p (a +:+ b)
          = p x && Str.forallb p a && Str.forallb p b).
  rewrite IH. by destruct (p x).
Qed.

Lemma forallb_weaken (p q : ascii → bool) (s : string) :
  (∀ c, p c = true → q c = true) →
  Str.forallb p s = true → Str.forallb q s = true.
Proof.
  intros Hpq. induction s as [|c s IH]; simpl; [done|].
  intros [Hc Hs]%andb_true_iff. by rewrite (Hpq c), IH.
Qed.

(** A replacement text without a dollar sign stands for itself. *)
Lemma substitution_plain matched before after r :
  Str.forallb is_plain_char r = true →
  substitution matched before after r = r.
Proof.
  induction r as [|c r IH]; simpl; [done|].
  intros [Hc Hr]%andb_true_iff.
  destruct (Ascii.eqb_spec c "$") as [->|_]; [done|].
  by rewrite IH.
Qed.

Lemma split_first_here pat rest :
  split_first pat (pat +:+ rest) = Some ("", rest).
Proof.
  assert (Hp : Str.strip_prefix pat (pat +:+ rest) = Some rest)
    by by apply strip_prefix_Some.
  destruct pat, rest; simpl in *; by rewrite ?Hp.
Qed.

(** The first occurrence of a pattern is not in a text that lacks the
    first character of the pattern. *)
Lemma split_first_skip c pat a b :
  Str.forallb (λ x, negb (Ascii.eqb x c)) a = true →
  split_first (String c pat) (a +:+ b)
  = match split_first (String c pat) b with
    | Some (x, y) => Some (a +:+ x, y)
    | None => None
    end.
Proof.
  induction a as [|d a IH]; intros Ha.
  - change ("" +:+ b) with b. by destruct (split_first _ b) as [[x y]|].
  - simpl in Ha. apply andb_true_iff in Ha as [Hd Ha].
    change (String d a +:+ b) with (String d (a +:+ b)).
    simpl. rewrite Ascii.eqb_sym in Hd.
    destruct (Ascii.eqb c d); [done|].
    rewrite IH by done. by destruct (split_first _ b) as [[x y]|].
Qed.

Lemma plain_no_brace a :
  Str.forallb is_plain_char a = true →
  Str.forallb (λ x, negb (Ascii.eqb x "{")) a = true.
Proof.
  apply forallb_weaken. intros c. unfold is_plain_char.
  by intros [_ ?]%andb_true_iff.
Qed.

(** Replacing a placeholder that comes after a text without braces, by
    a text without dollar signs. *)
Lemma replace_placeholder pat a r b :
  Str.forallb (λ x, negb (Ascii.eqb x "{")) a = true →
  Str.forallb is_plain_char r = true →
  replace (String "{" pat) r (a +:+ String "{" pat +:+ b) = a +:+ r +:+ b.
Proof.
  intros Ha Hr. unfold replace. rewrite split_first_skip by done.
  rewrite split_first_here, append_nil_r.
  by rewrite substitution_plain.
Qed.

(** The same, when the text starts with a brace that does not start
    the placeholder. *)
Lemma replace_placeholder_later pat a r b :
  Str.strip_prefix (String "{" pat) (String "{" (a +:+ String "{" pat +:+ b))
  = None →
  Str.forallb (λ x, negb (Ascii.eqb x "{")) a = true →
  Str.forallb is_plain_char r = true →
  replace (String "{" pat) r (String "{" (a +:+ String "{" pat +:+ b))
  = String "{" (a +:+ r +:+ b).
Proof.
  intros Hno Ha Hr. unfold replace.
  change (split_first (String "{" pat)
            (String "{" (a +:+ String "{" pat +:+ b)))
    with (match Str.strip_prefix (String "{" pat)
                  (String "{" (a +:+ String "{" pat +:+ b)) with
          | Some rest => Some ("", rest)
          | None =>
              match split_first (String "{" pat)
                      (a +:+ String "{" pat +:+ b) with
              | Some (x, y) => Some (String "{" x, y)
              | None => None
              end
          end).
  rewrite Hno, split_first_skip by done.
  rewrite split_first_here, append_nil_r.
  by rewrite substitution_plain.
Qed.

Lemma string_of_uint_plain d :
  Str.forallb is_plain_char (DecimalString.NilEmpty.string_of_uint d) = true.
Proof. induction d; simpl; by rewrite ?IHd. Qed.

Lemma Number_toString_plain n :
  Str.forallb is_plain_char (Number_toString n) = true.
Proof.
  unfold Number_toString, DecimalString.NilZero.string_of_int,
    DecimalString.NilZero.string_of_uint.
  destruct (Z.to_int n) as [d|d]; destruct d;
    first [done | apply string_of_uint_plain
          | simpl; apply string_of_uint_plain].
Qed.

Lemma template_shape style :
  PROMPT_TEMPLATES style
  = "{searchTerm}" +:+ template_body style +:+ "{width}x{height}.".
Proof. destruct style; reflexivity. Qed.

Lemma template_body_plain style :
  Str.forallb is_plain_char (template_body style) = true.
Proof. destruct style; reflexivity. Qed.

(** [getPrompt] with the template taken apart. *)
Lemma getPrompt_eq style searchTerm width height modifiers :
  getPrompt style searchTerm width height modifiers
  = replace "{height}" (Number_toString height)
      (replace "{width}" (Number_toString width)
         (replace "{searchTerm}" searchTerm (PROMPT_TEMPLATES style)))
    +:+ modifiers_text modifiers +:+ " " +:+ NEGATIVE_PROMPT.
Proof.
  unfold getPrompt, modifiers_text. destruct (truthy modifiers) as [m|].
  - by rewrite append_assoc.
  - reflexivity.
Qed.

End Replace.

(** X18. For a search term without dollar sign and opening brace,
    [getPrompt] is the search term, the text of the template of the
    style, the width and the height in decimal around an [x], a full
    stop, the modifiers after a space when there are any, and the
    negative prompt after a space. *)
Theorem getPrompt_plain_term (style : ImageStyle) (searchTerm : string)
    (width height : Z) (modifiers : option string) :
  Str.forallb is_plain_char searchTerm = true →
  getPrompt style searchTerm width height modifiers
  = searchTerm +:+ template_body style
    +:+ Number_toString width +:+ "x" +:+ Number_toString height +:+ "."
    +:+ modifiers_text modifiers +:+ " " +:+ NEGATIVE_PROMPT.
Proof.
  intros Hterm. rewrite getPrompt_eq, template_shape.
  pose proof (template_body_plain style) as Hbody.
  pose proof (Number_toString_plain width) as Hw.
  pose proof (Number_toString_plain height) as Hh.
  set (body := template_body style) in *.
  set (W := Number_toString width) in *.
  set (Hg := Number_toString height) in *.
  (* the search term *)
  replace (replace "{searchTerm}" searchTerm
             ("{searchTerm}" +:+ body +:+ "{width}x{height}."))
    with (searchTerm +:+ body +:+ "{width}x{height}.").
  2:{ symmetry.
      apply (replace_placeholder "searchTerm}" "" searchTerm); done. }
  (* the width *)
  replace (replace "{width}" W (searchTerm +:+ body +:+ "{width}x{height}."))
    with ((searchTerm +:+ body) +:+ W +:+ "x{height}.").
  2:{ symmetry. rewrite <- (append_assoc searchTerm body).
      apply (replace_placeholder "width}" (searchTerm +:+ body) W
               "x{height}."); [|done].
      apply plain_no_brace. by rewrite forallb_append, Hterm, Hbody. }
  (* the height *)
  replace (replace "{height}" Hg ((searchTerm +:+ body) +:+ W +:+ "x{height}."))
    with ((((searchTerm +:+ body) +:+ W) +:+ "x") +:+ Hg +:+ ".").
  2:{ symmetry.
      replace ((searchTerm +:+ body) +:+ W +:+ "x{height}.")
        with ((((searchTerm +:+ body) +:+ W) +:+ "x") +:+ "{height}" +:+ ".")
        by (by rewrite !append_assoc).
      apply (replace_placeholder "height}"); [|done].
      apply plain_no_brace.
      by rewrite !forallb_append, Hterm, Hbody, Hw. }
  by rewrite !append_assoc.
Qed.

(** The theorem at work on the prompt the tests of the repository ask
    for. *)
Lemma getPrompt_plain_term_witness :
  getPrompt glitchy "cat" 1080 1920 (Some "low-angle shot")
  = "cat" +:+ template_body glitchy +:+ "1080x1920. low-angle shot "
    +:+ NEGATIVE_PROMPT.
Proof.
  rewrite (getPrompt_plain_term glitchy "cat" 1080 1920
             (Some "low-angle shot") eq_refl).
  reflexivity.
Defined.

(** X19. The search term is not always copied. [getPrompt] hands it to
    [replace] as a replacement text, and fills in the width and the
    height afterwards. So, for every style, size and modifiers: a
    search term [{width}] is itself replaced by the width, and the
    [{width}] of the template stays in the prompt; a search term [$&]
    comes out as [{searchTerm}]; and a search term [$$] comes out as a
    single dollar sign. *)
Theorem getPrompt_special_terms (style : ImageStyle) (width height : Z)
    (modifiers : option string) :
  let tail :=
    "x" +:+ Number_toString height +:+ "." +:+ modifiers_text modifiers
    +:+ " " +:+ NEGATIVE_PROMPT in
  getPrompt style "{width}" width height modifiers
  = Number_toString width +:+ template_body style +:+ "{width}" +:+ tail
  ∧ getPrompt style "$&" width height modifiers
    = "{searchTerm}" +:+ template_body style
      +:+ Number_toString width +:+ tail
  ∧ getPrompt style "$$" width height modifiers
    = "$" +:+ template_body style +:+ Number_toString width +:+ tail.
Proof.
  intros tail. unfold tail. clear tail.
  pose proof (plain_no_brace _ (template_body_plain style)) as Hbody.
  pose proof (Number_toString_plain width) as Hw.
  pose proof (plain_no_brace _ Hw) as Hw'.
  pose proof (Number_toString_plain height) as Hh.
  rewrite !getPrompt_eq, template_shape.
  set (body := template_body style) in *.
  set (W := Number_toString width) in *.
  set (Hg := Number_toString height) in *.
  set (rest := body +:+ "{width}x{height}.").
  assert (Hfirst : ∀ r,
            replace "{searchTerm}" r ("{searchTerm}" +:+ rest)
            = substitution "{searchTerm}" "" rest r +:+ rest).
  { intros r. unfold replace. by rewrite split_first_here. }
  split; [|split]; rewrite Hfirst.
  - change (substitution "{searchTerm}" "" rest "{width}" +:+ rest)
      with ("" +:+ "{width}" +:+ rest).
    rewrite (replace_placeholder "width}" "" W rest) by done.
    change ("" +:+ W +:+ rest) with (W +:+ body +:+ "{width}x{height}.").
    replace (W +:+ body +:+ "{width}x{height}.")
      with ((W +:+ body +:+ "{width}x") +:+ "{height}" +:+ ".")
      by (by rewrite !append_assoc).
    unfold replace. rewrite <- (append_assoc W body).
    rewrite (append_assoc (W +:+ body) "{width}x").
    rewrite split_first_skip by (by rewrite forallb_append, Hw', Hbody).
    change (split_first "{height}" ("{width}x" +:+ "{height}" +:+ "."))
      with (Some ("{width}x", ".")).
    cbv beta iota. rewrite substitution_plain by done.
    by rewrite !append_assoc.
  - change (substitution "{searchTerm}" "" rest "$&" +:+ rest)
      with (String "{" (("searchTerm}" +:+ body) +:+ "{width}" +:+ "x{height}.")).
    rewrite (replace_placeholder_later "width}" ("searchTerm}" +:+ body) W)
      by (done || by rewrite forallb_append, Hbody).
    replace (String "{" (("searchTerm}" +:+ body) +:+ W +:+ "x{height}."))
      with (String "{" (((("searchTerm}" +:+ body) +:+ W) +:+ "x")
                        +:+ "{height}" +:+ "."))
      by (by rewrite !append_assoc).
    rewrite (replace_placeholder_later "height}") by
      (done || by rewrite !forallb_append, Hbody, Hw').
    change (String "{" ?x) with ("{" +:+ x).
    by rewrite !append_assoc.
  - change (substitution "{searchTerm}" "" rest "$$" +:+ rest)
      with (("$" +:+ body) +:+ "{width}" +:+ "x{height}.").
    rewrite (replace_placeholder "width}" ("$" +:+ body) W)
      by (done || by rewrite forallb_append, Hbody).
    replace (("$" +:+ body) +:+ W +:+ "x{height}.")
      with (((("$" +:+ body) +:+ W) +:+ "x") +:+ "{height}" +:+ ".")
      by (by rewrite !append_assoc).
    rewrite (replace_placeholder "height}") by
      (done || by rewrite !forallb_append, Hbody, Hw').
    by rewrite !append_assoc.
Qed.

(** ** [OpenAIImagesAPI.getSizeString] *)

(** X20. The size asked of the generator is one of the three the model
    supports, chosen by the shape of the picture alone: upright when
    the height exceeds the width, lying when the width exceeds the
    height, square when they are equal. Exchanging width and height
    exchanges upright and lying. *)
Theorem getSizeString_by_shape (width height : Z) :
  (getSizeString width height = "1024x1792" ↔ height > width)
  ∧ (getSizeString width height = "1792x1024" ↔ width > height)
  ∧ (getSizeString width height = "1024x1024" ↔ width = height)
  ∧ (getSizeString width height = "1024x1792"
     ↔ getSizeString height width = "1792x1024").
Proof.
  unfold getSizeString.
  destruct (Z.gtb_spec height width), (Z.gtb_spec width height);
    repeat split; intros; try done; try lia.
Qed.

(** ** A cache write that failed is not remembered *)

(** X21. When the answer of the generator cannot be stored, nothing
    stands for it in the cache: the next call for the same search terms
    and orientation asks the generator again. *)
Theorem findVideo_failed_write_is_not_remembered `{Platform}
    (api : OpenAIImagesAPI) (terms : list string) (dur dur' : Q)
    (excl excl' : list string) (o : OrientationEnum)
    (s s1 : State) (result : Video.t) :
  let key := cacheKey terms o in
  let req := mkRequest terms dur excl o in
  let req' := mkRequest terms dur' excl' o in
  FileCache.getFileUrl key s = (Ok None, s1) →
  api (length (requests s1)) req = Ok result →
  ¬ is_image_data_url (Video.url result) →
  ∃ s2,
    CachedOpenAIImagesAPI.findVideo api terms dur excl o s = (Ok result, s2)
    ∧ requests (CachedOpenAIImagesAPI.findVideo api terms dur' excl' o s2).2
      = req' :: req :: requests s1.
Proof.
  intros key req req' Hget Hapi Hbad.
  exists (logged (cache_failure_log "Invalid data URL format") (asked req s1)).
  split.
  - apply (findVideo_cache_write_fails _ _ _ _ _ _ s1); [done|done|].
    unfold FileCache.setFromDataUrl.
    by rewrite (proj2 (matchDataUrl_None _) Hbad).
  - assert (Hnone : ∀ e, index (cache s1) !! key = Some e →
                         CacheEntry.filePath e = "").
    { destruct (getFileUrl_cases key s)
        as [(e & _ & _ & Hget')|(s' & Hget' & _ & Hnone)];
        rewrite Hget in Hget'; [done|].
      by injection Hget' as <-. }
    set (s2 := logged _ _).
    destruct (getFileUrl_cases key s2)
      as [(e & (He & _) & Hp & _)|(s3 & Hget2 & Hreq & _)].
    + by destruct Hp, (Hnone e).
    + rewrite (findVideo_miss_requests _ _ _ _ _ _ s3) by done.
      by rewrite Hreq.
Qed.

Lemma findVideo_failed_write_is_not_remembered_witness :
  ∃ s2,
    CachedOpenAIImagesAPI.findVideo (H := Sample.platform)
      Sample_remote_generator ["cat"] 3 [] portrait Sample.fresh
    = (Ok (Video.mk "openai-realistic-cat-1" "https://example.com/cat.png"
             1080 1920), s2)
    ∧ length (requests
                (CachedOpenAIImagesAPI.findVideo (H := Sample.platform)
                   Sample_remote_generator ["cat"] 3 [] portrait s2).2)
      = 2%nat.
Proof.
  destruct (findVideo_failed_write_is_not_remembered (H := Sample.platform)
              Sample_remote_generator ["cat"] 3 3 [] [] portrait
              Sample.fresh Sample.fresh
              (Video.mk "openai-realistic-cat-1" "https://example.com/cat.png"
                 1080 1920) eq_refl eq_refl) as (s2 & Hrun & Hreq).
  - apply matchDataUrl_None. reflexivity.
  - exists s2. split; [exact Hrun|]. by rewrite Hreq.
Defined.

(** * Opening a cache *)

Section Open.
Context `{Platform} `{JsonReader} `{Directories}.

(** An error of [ensureDirSync] ends the constructor; [loadIndex] runs
    only after the directory has been made sure of. *)
Lemma new_FileCache_eq dir ttl s :
  new_FileCache dir ttl s
  = match (ensureDirSync dir s).1 with
    | Ok _ => loadIndex (blank dir ttl s)
    | Throw e => (Throw e, blank dir ttl s)
    end.
Proof.
  unfold new_FileCache, ensureCacheDir, ensureDirSync, bind, this. simpl.
  destruct (disk s !! dir); [done|]. by destruct (mkdirs (disk s) dir) as [[]|].
Qed.

Lemma ensureDirSync_file dir s :
  is_Some (disk s !! dir) → (ensureDirSync dir s).1 = Throw "EEXIST".
Proof. intros [b Hb]. unfold ensureDirSync. by rewrite Hb. Qed.

Lemma loadIndex_absent s :
  disk s !! indexPath (cache s) = None → loadIndex s = (Ok tt, s).
Proof.
  intros Hd. unfold loadIndex. run.
  by rewrite bool_decide_eq_false_2 by (rewrite Hd; by intros [? ?]).
Qed.

Lemma loadIndex_parsed s bytes ix :
  disk s !! indexPath (cache s) = Some bytes →
  json_parse bytes = Ok ix →
  loadIndex s
  = (Ok tt,
     logged (mkLog debug [("indexSize", FNumber (Z.of_nat (size ix)))]
               "Loaded cache index")
       (with_index ix s)).
Proof.
  intros Hd Hparse. unfold loadIndex, readJsonSync, index_assign. run.
  rewrite bool_decide_eq_true_2 by (rewrite Hd; eauto).
  simpl. by rewrite Hd, Hparse.
Qed.

Lemma loadIndex_broken s bytes e :
  disk s !! indexPath (cache s) = Some bytes →
  json_parse bytes = Throw e →
  loadIndex s
  = (Ok tt,
     with_index ∅
       (logged (mkLog error [("err", FString e)] "Failed to load cache index")
          s)).
Proof.
  intros Hd Hparse. unfold loadIndex, readJsonSync, index_assign. run.
  rewrite bool_decide_eq_true_2 by (rewrite Hd; eauto).
  simpl. by rewrite Hd, Hparse.
Qed.

End Open.

(** * Invariants of the cache *)

Section Steps.
Context `{Platform}.

Lemma steps_has id s : rtc step s (FileCache.has id s).2.
Proof.
  destruct (index (cache s) !! id) as [e|] eqn:He.
  - destruct (expired (clock s (ticks s)) e) eqn:Hx.
    + rewrite (has_expired id e) by done. simpl.
      eapply rtc_l; [apply step_tick|]. apply rtc_once, step_purge.
    + destruct (disk s !! CacheEntry.filePath e) as [b|] eqn:Hd.
      * rewrite (has_live id e)
          by (split; [done|]; split; [done|]; rewrite Hd; eauto).
        apply rtc_once, step_tick.
      * rewrite (has_missing id e) by done. simpl.
        eapply rtc_l; [apply step_tick|]. apply rtc_once, step_drop.
  - by rewrite has_absent.
Qed.

Lemma get_state id s : (FileCache.get id s).2 = (FileCache.has id s).2.
Proof.
  unfold FileCache.get, bind.
  destruct (FileCache.has id s) as [[[]|e] s'] eqn:Hhas; [|done..].
  simpl. unfold this. by destruct (index (cache s') !! id).
Qed.

Lemma getFileUrl_state id s :
  (FileCache.getFileUrl id s).2 = (FileCache.has id s).2.
Proof.
  rewrite <- get_state. unfold FileCache.getFileUrl, bind.
  destruct (FileCache.get id s) as [[r|e] s']; [|done].
  by destruct (truthy r).
Qed.

Lemma steps_getDataUrl id s : rtc step s (FileCache.getDataUrl id s).2.
Proof.
  unfold FileCache.getDataUrl, bind.
  pose proof (steps_has id s) as Hhas. rewrite <- get_state in Hhas.
  destruct (FileCache.get id s) as [[r|e] s']; [|done].
  simpl in Hhas. destruct (truthy r) as [p|]; [|done]. run.
  destruct (disk s' !! p); [done|].
  eapply rtc_r; [done|]. apply step_log.
Qed.

Lemma steps_setFromDataUrl id dataUrl ttl s :
  rtc step s (FileCache.setFromDataUrl id dataUrl ttl s).2.
Proof.
  destruct (matchDataUrl dataUrl) as [[f d]|] eqn:Hm.
  - rewrite (setFromDataUrl_stores id dataUrl f d) by done.
    apply rtc_once, step_store.
  - unfold FileCache.setFromDataUrl. by rewrite Hm.
Qed.

Lemma steps_delete id s : rtc step s (FileCache.delete id s).2.
Proof.
  destruct (index (cache s) !! id) as [e|] eqn:He.
  - rewrite (delete_present id e) by done. apply rtc_once, step_purge.
  - by rewrite delete_absent.
Qed.

Lemma steps_swept now l s : rtc step s (swept now l s).
Proof.
  revert s. induction l as [|kv l IH]; intros s; [done|].
  rewrite swept_cons. destruct (expired now kv.2); [|done].
  eapply rtc_l; [apply step_purge|apply IH].
Qed.

Lemma steps_emptied l s : rtc step s (emptied l s).
Proof.
  revert s. induction l as [|kv l IH]; intros s; [done|].
  rewrite emptied_cons. eapply rtc_l; [apply step_purge|apply IH].
Qed.

Lemma steps_cleanup s : rtc step s (FileCache.cleanup s).2.
Proof.
  rewrite cleanup_eq. simpl.
  eapply rtc_l; [apply step_tick|].
  eapply rtc_r; [apply steps_swept|]. apply step_log.
Qed.

Lemma steps_clear s : rtc step s (FileCache.clear s).2.
Proof.
  rewrite clear_eq. simpl. eapply rtc_r; [apply steps_emptied|].
  apply step_log.
Qed.

Lemma getStats_state s : (FileCache.getStats s).2 = s.
Proof. unfold FileCache.getStats, bind, this. by rewrite getStats_loop. Qed.

Lemma steps_findVideo api terms dur excl o s :
  rtc step s (CachedOpenAIImagesAPI.findVideo api terms dur excl o s).2.
Proof.
  pose proof (steps_has (cacheKey terms o) s) as Hfirst.
  rewrite <- getFileUrl_state in Hfirst.
  destruct (FileCache.getFileUrl (cacheKey terms o) s)
    as [[[url|]|e] s1] eqn:Hget; simpl in Hfirst.
  - destruct (getFileUrl_cases (cacheKey terms o) s)
      as [(e & _ & _ & Hget')|(s' & Hget' & _)];
      rewrite Hget in Hget'; [|done].
    injection Hget' as -> ->.
    rewrite (findVideo_hit _ _ _ _ _ _ (CacheEntry.filePath e) (ticked s))
      by done.
    eapply rtc_r; [done|]. apply step_log.
  - rewrite (findVideo_miss _ _ _ _ _ _ s1) by done.
    assert (Hasked : rtc step s (asked (mkRequest terms dur excl o) s1)).
    { eapply rtc_r.
      - eapply rtc_r; [exact Hfirst|].
        apply (step_log (miss_log (cacheKey terms o) terms)).
      - exact (step_ask (mkRequest terms dur excl o)
                 (logged (miss_log (cacheKey terms o) terms) s1)). }
    destruct (api _ _) as [result|err]; [|done].
    pose proof (steps_setFromDataUrl (cacheKey terms o) (Video.url result)
                  None (asked (mkRequest terms dur excl o) s1)) as Hset.
    destruct (FileCache.setFromDataUrl _ _ _ _) as [[q|err] s2];
      simpl in Hset.
    + pose proof (steps_has (cacheKey terms o) s2) as Hread.
      rewrite <- getFileUrl_state in Hread.
      assert (Hs2 : rtc step s s2) by by etrans.
      destruct (FileCache.getFileUrl (cacheKey terms o) s2)
        as [[fileUrl|err] s3]; simpl in Hread.
      * destruct (truthy fileUrl); simpl; by etrans.
      * simpl. eapply rtc_r; [by etrans|]. apply step_log.
    + simpl. eapply rtc_r; [by etrans|]. apply step_log.
  - destruct (getFileUrl_cases (cacheKey terms o) s)
      as [(e' & _ & _ & Hget')|(s' & Hget' & _)];
      by rewrite Hget in Hget'.
Qed.

Lemma steps_after c s : rtc step s (after c s).
Proof.
  destruct c; simpl.
  - apply steps_has.
  - rewrite get_state. apply steps_has.
  - rewrite getFileUrl_state. apply steps_has.
  - apply steps_getDataUrl.
  - apply steps_setFromDataUrl.
  - apply steps_delete.
  - apply steps_cleanup.
  - apply steps_clear.
  - by rewrite getStats_state.
  - apply steps_findVideo.
Qed.

Lemma steps_after_all calls s : rtc step s (after_all calls s).
Proof.
  revert s. induction calls as [|c calls IH]; intros s; [done|].
  etrans; [apply (steps_after c)|apply IH].
Qed.

(** What each elementary change preserves. *)

Lemma step_config s s' : step s s' → config s' = config s.
Proof. by destruct 1. Qed.

Lemma step_synced s s' : step s s' → synced s → synced s'.
Proof.
  unfold synced. destruct 1; try done; intros _.
  - apply dropped_persisted.
  - apply (dropped_persisted id (unlinked p s)).
  - simpl. apply lookup_insert_eq.
Qed.

Lemma step_keyed s s' : step s s' → keyed s → keyed s'.
Proof.
  unfold keyed. destruct 1; try done; intros Hk k e.
  - rewrite index_dropped. intros [_ He]%lookup_delete_Some. by apply Hk.
  - rewrite index_dropped. intros [_ He]%lookup_delete_Some. by apply Hk.
  - simpl. intros [[<- <-]|[_ He]]%lookup_insert_Some; [done|].
    by apply Hk.
Qed.

Lemma steps_invariant (P : State → Prop) s s' :
  (∀ s s', step s s' → P s → P s') → rtc step s s' → P s → P s'.
Proof. intros Hstep. induction 1; eauto. Qed.

End Steps.

(** X22. No call changes the configuration of the cache: after any
    succession of calls of [has], [get], [getFileUrl], [getDataUrl],
    [setFromDataUrl], [delete], [cleanup], [clear], [getStats] and
    [findVideo], whatever their arguments and whether they return or
    raise, the directory, the path of the index document and the
    default time-to-live are what they were. *)
Theorem config_is_immutable `{Platform} (calls : list Call) (s : State) :
  config (after_all calls s) = config s.
Proof.
  pose proof (steps_after_all calls s) as Hsteps.
  induction Hsteps as [|s1 s2 s3 Hstep _ IH]; [done|].
  rewrite IH. by apply step_config.
Qed.

(** X23. The index document follows the index. If the document on disk
    is the index in memory, it still is after any succession of calls:
    every method that changes the index rewrites the document, and no
    method writes anything else over it without rewriting it. *)
Theorem index_document_stays_in_sync `{Platform}
    (calls : list Call) (s : State) :
  synced s → synced (after_all calls s).
Proof.
  apply (steps_invariant synced); [apply @step_synced|].
  apply steps_after_all.
Qed.

Lemma index_document_stays_in_sync_witness :
  synced (H := Sample.platform)
    (after_all (H := Sample.platform)
       [call_setFromDataUrl "dog" "data:image/png;base64,RE9H" (Some 10);
        call_has "cat-portrait";
        call_cleanup;
        call_findVideo Sample_generator ["owl"] 3 [] landscape;
        call_delete "cat-portrait"]
       (saved (H := Sample.platform) Sample.one_live)).
Proof.
  apply (index_document_stays_in_sync (H := Sample.platform)).
  reflexivity.
Defined.

(** X24. Entries stay under their own [id]. If every entry of the index
    is recorded under the key that is its [id], this is still so after
    any succession of calls. *)
Theorem entries_stay_keyed_by_id `{Platform} (calls : list Call) (s : State) :
  keyed s → keyed (after_all calls s).
Proof.
  apply (steps_invariant keyed); [apply @step_keyed|].
  apply steps_after_all.
Qed.

Lemma entries_stay_keyed_by_id_witness :
  ∃ e,
    index
      (cache
         (after_all (H := Sample.platform)
            [call_findVideo Sample_generator ["Owl!"] 3 [] landscape;
             call_setFromDataUrl "dog" "data:image/png;base64,RE9H" None;
             call_delete "owl-landscape"]
            Sample.fresh))
    !! "dog" = Some e
    ∧ CacheEntry.id e = "dog".
Proof.
  destruct (index _ !! "dog") as [e|] eqn:He.
  - exists e. split; [reflexivity|].
    apply (entries_stay_keyed_by_id (H := Sample.platform)
             [call_findVideo Sample_generator ["Owl!"] 3 [] landscape;
              call_setFromDataUrl "dog" "data:image/png;base64,RE9H" None;
              call_delete "owl-landscape"]
             Sample.fresh);
      [|exact He].
    intros id e' He'.
    change ((∅ : gmap string CacheEntry.t) !! id = Some e') in He'.
    by rewrite lookup_empty in He'.
  - vm_compute in He. discriminate.
Defined.

(** * Opening a cache, continued *)

(** X25. The constructor writes and removes no file, whatever is on
    disk, and raises only what [ensureDirSync] raises: when the path of
    the directory is taken by a file, or the directory cannot be made,
    the constructor raises that error, before anything is read or
    logged. Otherwise it returns normally. It sets the directory, puts
    the index document at [index.json] in it and takes one week for the
    default time-to-live when none is given. The index is what the
    index document parses to; it is empty when there is no document,
    and also when the document cannot be parsed, which is logged as an
    error. *)
Theorem new_FileCache_loads_index `{Platform} `{JsonReader} `{Directories}
    (dir : string) (ttl : option Z) (s : State) :
  let path := path_join dir "index.json" in
  ∃ r s',
    new_FileCache dir ttl s = (r, s')
    ∧ disk s' = disk s
    ∧ (is_Some (disk s !! dir) → r = Throw "EEXIST")
    ∧ match (ensureDirSync dir s).1 with
      | Throw e => r = Throw e ∧ logs s' = logs s
      | Ok _ =>
          r = Ok tt
          ∧ config s'
            = (dir, path, match ttl with Some t => t | None => 604800000 end)
          ∧ match disk s !! path with
            | None => index (cache s') = ∅ ∧ logs s' = logs s
            | Some bytes =>
                match json_parse bytes with
                | Ok ix =>
                    index (cache s') = ix
                    ∧ logs s'
                      = mkLog debug
                          [("indexSize", FNumber (Z.of_nat (size ix)))]
                          "Loaded cache index" :: logs s
                | Throw e =>
                    index (cache s') = ∅
                    ∧ logs s'
                      = mkLog error [("err", FString e)]
                          "Failed to load cache index" :: logs s
                end
            end
      end.
Proof.
  intros path. rewrite new_FileCache_eq.
  pose proof (ensureDirSync_file dir s) as Hfile.
  destruct (ensureDirSync dir s).1 as [[]|e] eqn:Hdir.
  - destruct (disk s !! path) as [bytes|] eqn:Hd.
    + destruct (json_parse bytes) as [ix|e] eqn:Hparse.
      * rewrite (loadIndex_parsed _ bytes ix) by done.
        eexists _, _. split; [done|]. split; [done|].
        split; [by intros ?%Hfile|]. by destruct ttl.
      * rewrite (loadIndex_broken _ bytes e) by done.
        eexists _, _. split; [done|]. split; [done|].
        split; [by intros ?%Hfile|]. by destruct ttl.
    + rewrite loadIndex_absent by done.
      eexists _, _. split; [done|]. split; [done|].
      split; [by intros ?%Hfile|]. by destruct ttl.
  - eexists _, _. split; [done|]. split; [done|]. split; [|done].
    intros Hsome. apply Hfile in Hsome. congruence.
Qed.

(** On [Sample_blocked] the path of the directory is a file: the
    constructor raises. *)
Example new_FileCache_on_a_file :
  new_FileCache (H := Sample.platform) (H0 := Sample_reader)
    (H1 := Sample_directories) "/cache" None Sample_blocked
  = (Throw "EEXIST", blank (H := Sample.platform) "/cache" None Sample_blocked).
Proof. reflexivity. Qed.

(** X26. What was saved is found again. If the index document on disk
    is the index in memory, the JSON library reads back what it wrote
    for this index, and the directory is there (as it is when the index
    document is in it), so that [ensureDirSync] returns, then a cache
    opened on the same directory with the same default time-to-live is
    the same cache: same configuration, same index; and the disk is as
    it was. *)
Theorem new_FileCache_reopens `{Platform} `{JsonReader} `{Directories}
    (s : State) :
  indexPath (cache s) = path_join (cacheDir (cache s)) "index.json" →
  synced s →
  json_parse (json_stringify (index (cache s))) = Ok (index (cache s)) →
  (ensureDirSync (cacheDir (cache s)) s).1 = Ok tt →
  ∃ s',
    new_FileCache (cacheDir (cache s)) (Some (defaultTTL (cache s))) s
    = (Ok tt, s')
    ∧ cache s' = cache s
    ∧ disk s' = disk s.
Proof.
  intros Hpath Hsync Hparse Hdir. rewrite new_FileCache_eq, Hdir.
  rewrite (loadIndex_parsed _ (json_stringify (index (cache s)))
             (index (cache s))).
  - eexists. split; [done|]. split; [|done]. simpl.
    rewrite <- Hpath. by destruct (cache s).
  - simpl. by rewrite <- Hpath.
  - done.
Qed.

Lemma new_FileCache_reopens_witness :
  ∃ s',
    new_FileCache (H := Sample.platform) (H0 := Sample_reader)
      (H1 := Sample_directories)
      "/cache" (Some Sample.week) (saved (H := Sample.platform) Sample.one_live)
    = (Ok tt, s')
    ∧ index (cache s') !! "cat-portrait" = Some Sample.cat.
Proof.
  destruct (new_FileCache_reopens (H := Sample.platform) (H0 := Sample_reader)
              (H1 := Sample_directories)
              (saved (H := Sample.platform) Sample.one_live))
    as (s' & Hrun & Hcache & _);
    [reflexivity|reflexivity|reflexivity|reflexivity|].
  exists s'. split; [exact Hrun|]. by rewrite Hcache.
Defined.

(** * The image generator, continued *)

Section GeneratorSteps.
Context `{Network}.

Lemma Generator_findVideo_eq key style terms dur excl o s :
  key ≠ "" →
  Generator.findVideo key style terms dur excl o s
  = let s0 := logged (generating_log style terms o) s in
    match fetch (Generator.generation key style terms o) with
    | Rejected e => (Throw e, logged (generation_error_log e) s0)
    | Refused status statusText errorData =>
        let e :=
          if status =? 401 then
            "Invalid OpenAI API key - please set a valid key in OPENAI_API_KEY environment variable"
          else
            "OpenAI API error: " +:+ Number_toString status +:+ " "
            +:+ statusText +:+ " - " +:+ errorData in
        (Throw e, logged (generation_error_log e) s0)
    | Answered (Throw e) => (Throw e, logged (generation_error_log e) s0)
    | Answered (Ok b64_json) =>
        match truthy b64_json with
        | None =>
            (Throw "No image data returned from OpenAI",
             logged (generation_error_log "No image data returned from OpenAI")
               s0)
        | Some b64_json =>
            let id :=
              "openai-" +:+ style_name style +:+ "-"
              +:+ sanitize (Str.join "-" terms) +:+ "-"
              +:+ Number_toString (clock s (ticks s)) in
            (Ok (Video.mk id ("data:image/png;base64," +:+ b64_json)
                   (getOrientationConfig o).1 (getOrientationConfig o).2),
             logged
               (mkLog debug
                  [("id", FString id);
                   ("searchTerm", FString (Str.join ", " terms));
                   ("imageStyle", FString (style_name style))]
                  "Image generated with OpenAI")
               (ticked s0))
        end
    end.
Proof.
  intros Hkey. unfold Generator.findVideo.
  rewrite eqb_empty_false by done.
  destruct (getOrientationConfig o) as [w h] eqn:Hwh.
  unfold bind at 1, logger.debug at 1, logger.log at 1. unfold try_catch.
  destruct (fetch _) as [e|status statusText errorData|[b|e]]; try done.
  - by destruct (status =? 401).
  - by destruct (truthy b).
Qed.

End GeneratorSteps.

(** X27. What the generator returns can be stored. With a key, when
    the reply carries a non-empty [b64_json], [findVideo] returns
    normally: the [url] is [data:image/png;base64,] followed by that
    string, the width and height are those of the orientation, and the
    [id] is made of the style, of the search terms cleaned as for the
    cache key, and of the time, read once. If the string has no line
    break, the [url] is one [setFromDataUrl] accepts, for any [id], and
    the file it writes is a [.png]. *)
Theorem Generator_answer_can_be_stored `{Network} `{Platform}
    (key : string) (style : ImageStyle) (terms : list string) (dur : Q)
    (excl : list string) (o : OrientationEnum) (s : State) (b64 : string) :
  key ≠ "" →
  fetch (Generator.generation key style terms o) = Answered (Ok (Some b64)) →
  b64 ≠ "" →
  ∃ v s',
    Generator.findVideo key style terms dur excl o s = (Ok v, s')
    ∧ Video.url v = "data:image/png;base64," +:+ b64
    ∧ (Video.width v, Video.height v) = getOrientationConfig o
    ∧ (∃ stem,
         cacheKey terms o = stem +:+ "-" +:+ orientation_tag o
         ∧ Video.id v
           = "openai-" +:+ style_name style +:+ "-" +:+ stem +:+ "-"
             +:+ Number_toString (clock s (ticks s)))
    ∧ ticks s' = S (ticks s)
    ∧ (has_line_terminator b64 = false →
       ∀ id ttl s0,
         FileCache.setFromDataUrl id (Video.url v) ttl s0
         = (Ok (path_join (cacheDir (cache s0)) (md5_hex id +:+ ".png")),
            stored id "png" b64 ttl s0)).
Proof.
  intros Hkey Hfetch Hb. rewrite Generator_findVideo_eq by done.
  rewrite Hfetch. simpl. rewrite eqb_empty_false by done.
  eexists _, _. split; [reflexivity|]. simpl.
  split; [done|]. split; [by destruct (getOrientationConfig o)|].
  split; [eexists; split; [apply cacheKey_split|done]|].
  split; [done|]. intros Hline id ttl s0.
  apply setFromDataUrl_stores.
  apply (matchDataUrl_Some _ "png" b64). done.
Qed.

Lemma Generator_answer_can_be_stored_witness :
  ∃ s',
    Generator.findVideo (H := Sample_network) "sk-test" neon ["Playground!"]
      3 [] portrait Sample.fresh
    = (Ok (Video.mk "openai-neon-playground-5000"
             "data:image/png;base64,Q0FU" 1080 1920), s')
    ∧ ∃ s1,
        FileCache.setFromDataUrl (H := Sample.platform) "playground-portrait"
          "data:image/png;base64,Q0FU" None Sample.fresh
        = (Ok "/cache/playground-portrait.png", s1).
Proof.
  destruct (Generator_answer_can_be_stored (H := Sample_network)
              (H0 := Sample.platform) "sk-test" neon ["Playground!"] 3 []
              portrait Sample.fresh "Q0FU")
    as (v & s' & Hrun & Hurl & _ & _ & _ & Hstore);
    [discriminate|reflexivity|discriminate|].
  exists s'. split.
  - rewrite Hrun. f_equal. apply (f_equal fst) in Hrun.
    vm_compute in Hrun. congruence.
  - exists (stored (H := Sample.platform) "playground-portrait" "png" "Q0FU"
              None Sample.fresh).
    pose proof (Hstore eq_refl "playground-portrait" None Sample.fresh) as Hs.
    rewrite Hurl in Hs. exact Hs.
Defined.

(** X28. Failures of the generator. Without a key, [findVideo] raises
    ["OpenAI API key not set"] at once: nothing is logged and nothing
    is sent. With a key, every error it raises has been logged, once,
    right after the record of the start, and the clock has not been
    read. A reply with status 401 raises the message about the key,
    whatever the reply says; a reply without image data raises ["No
    image data returned from OpenAI"]. *)
Theorem Generator_failures `{Network}
    (key : string) (style : ImageStyle) (terms : list string) (dur : Q)
    (excl : list string) (o : OrientationEnum) (s : State) :
  let run := Generator.findVideo key style terms dur excl o s in
  let reply := fetch (Generator.generation key style terms o) in
  (key = "" → run = (Throw "OpenAI API key not set", s))
  ∧ (key ≠ "" →
     (∀ e s', run = (Throw e, s') →
        logs s' = generation_error_log e :: generating_log style terms o
                    :: logs s
        ∧ ticks s' = ticks s)
     ∧ (∀ statusText errorData,
          reply = Refused 401 statusText errorData →
          run.1
          = Throw "Invalid OpenAI API key - please set a valid key in OPENAI_API_KEY environment variable")
     ∧ (reply = Answered (Ok None) ∨ reply = Answered (Ok (Some "")) →
        run.1 = Throw "No image data returned from OpenAI")).
Proof.
  intros run reply. unfold run, reply. split.
  - by intros ->.
  - intros Hkey. rewrite Generator_findVideo_eq by done. simpl.
    split; [|split].
    + intros e s'.
      destruct (fetch _) as [e'|status statusText errorData|[b|e']].
      * by intros [= <- <-].
      * by intros [= <- <-].
      * destruct (truthy b); [done|]. by intros [= <- <-].
      * by intros [= <- <-].
    + by intros statusText errorData ->.
    + by intros [-> | ->].
Qed.

(** The tests of the repository: a key that is turned down, and no key
    at all. *)
Example Generator_unauthorized :
  (Generator.findVideo (H := Sample_unauthorized) "invalid-key"
     creepy_cartoon_tiktok ["test"] 3 [] portrait Sample.fresh).1
  = Throw "Invalid OpenAI API key - please set a valid key in OPENAI_API_KEY environment variable".
Proof. reflexivity. Qed.

Example Generator_missing_key :
  Generator.findVideo (H := Sample_network) ""
    creepy_cartoon_tiktok ["test"] 3 [] portrait Sample.fresh
  = (Throw "OpenAI API key not set", Sample.fresh).
Proof. reflexivity. Qed.

(** ** The table of styles *)

(** X29. The table of templates is regular. [IMAGE_STYLES] lists every
    style once and the styles have different names. Every template is
    [{searchTerm}], a text without brace or dollar sign, and
    [{width}x{height}.]: each placeholder occurs once, in this order. *)
Theorem prompt_templates_are_regular :
  NoDup IMAGE_STYLES
  ∧ (∀ style, style ∈ IMAGE_STYLES)
  ∧ (∀ a b, style_name a = style_name b → a = b)
  ∧ (∀ style,
       ∃ body,
         PROMPT_TEMPLATES style
         = "{searchTerm}" +:+ body +:+ "{width}x{height}."
         ∧ Str.forallb is_plain_char body = true).
Proof.
  split; [|split; [|split]].
  - unfold IMAGE_STYLES. repeat (apply NoDup_cons; split;
      [rewrite ?elem_of_cons, elem_of_nil; intuition discriminate|]).
    apply NoDup_nil_2.
  - intros []; unfold IMAGE_STYLES; rewrite ?elem_of_cons; tauto.
  - intros [] []; simpl; intros Hab; (reflexivity || discriminate Hab).
  - intros style. exists (template_body style).
    split; [apply template_shape|apply template_body_plain].
Qed.

(** * Opening the wrapper *)

Section OpenWrapper.
Context `{Platform} `{JsonReader} `{Directories}.

Lemma config_after_all calls s : config (after_all calls s) = config s.
Proof.
  pose proof (steps_after_all calls s) as Hsteps.
  induction Hsteps as [|s1 s2 s3 Hstep _ IH]; [done|].
  rewrite IH. by apply step_config.
Qed.

(** The constructor returns what [ensureDirSync] does, and when it
    returns normally the configuration is set. *)
Lemma new_FileCache_config dir ttl s :
  ∃ r s',
    new_FileCache dir ttl s = (r, s')
    ∧ r = (ensureDirSync dir s).1
    ∧ (r = Ok tt →
       config s' = (dir, path_join dir "index.json", default DEFAULT_TTL ttl)).
Proof.
  rewrite new_FileCache_eq.
  destruct (ensureDirSync dir s).1 as [[]|e] eqn:Hdir.
  - destruct (disk s !! path_join dir "index.json") as [bytes|] eqn:Hd.
    + destruct (json_parse bytes) as [ix|e] eqn:Hparse.
      * rewrite (loadIndex_parsed _ bytes ix) by done. by eexists _, _.
      * rewrite (loadIndex_broken _ bytes e) by done. by eexists _, _.
    + rewrite loadIndex_absent by done. by eexists _, _.
  - by eexists _, _.
Qed.

End OpenWrapper.

(** X30. The wrapper takes no time-to-live. Its constructor raises
    exactly what [ensureDirSync] raises for its directory (the path is
    taken by a file, or the directory cannot be made) and returns
    normally otherwise. The directory is the one given; a missing or
    empty one stands for the directory under the home of the user.
    Once opened, the cache has a default time-to-live of seven days,
    604 800 000 ms, and keeps it, with its directory, through any
    succession of calls. *)
Theorem wrapper_keeps_one_week `{Platform} `{JsonReader} `{Directories}
    (fallback : string) (dir : option string) (s : State) :
  let d := match dir with
           | Some "" | None => fallback
           | Some dir => dir
           end in
  ∃ r s',
    new_CachedOpenAIImagesAPI fallback dir s = (r, s')
    ∧ r = (ensureDirSync d s).1
    ∧ (r = Ok tt →
       ∀ calls,
         defaultTTL (cache (after_all calls s')) = 604800000
         ∧ cacheDir (cache (after_all calls s')) = d).
Proof.
  intros d. unfold new_CachedOpenAIImagesAPI.
  replace (match truthy dir with Some dir => dir | None => fallback end)
    with d by (unfold d; by destruct dir as [[]|]).
  destruct (new_FileCache_config d None s) as (r & s' & Hrun & Hr & Hcfg).
  exists r, s'. split; [exact Hrun|]. split; [exact Hr|].
  intros Hok calls. pose proof (config_after_all calls s') as Hsame.
  rewrite (Hcfg Hok) in Hsame. by injection Hsame as -> _ ->.
Qed.

(** The theorem at work: opened on a directory, the wrapper has its
    week, and has it still after a call of [findVideo] and one of
    [cleanup]. *)
Lemma wrapper_keeps_one_week_witness :
  ∃ s',
    new_CachedOpenAIImagesAPI (H := Sample.platform) (H0 := Sample_reader)
      (H1 := Sample_directories) "/home/user/image-cache" (Some "/cache")
      Sample.fresh
    = (Ok tt, s')
    ∧ defaultTTL
        (cache
           (after_all (H := Sample.platform)
              [call_findVideo Sample_generator ["cat"] 3 [] portrait;
               call_cleanup]
              s'))
      = 604800000.
Proof.
  destruct (wrapper_keeps_one_week (H := Sample.platform)
              (H0 := Sample_reader) (H1 := Sample_directories)
              "/home/user/image-cache" (Some "/cache") Sample.fresh)
    as (r & s' & Hrun & Hr & Hkeep).
  assert (Hok : r = Ok tt) by (rewrite Hr; reflexivity).
  exists s'. split; [by rewrite Hrun, Hok|]. by apply Hkeep.
Defined.

(** Opened on the path of a file, the wrapper raises. *)
Example wrapper_on_a_file :
  (new_CachedOpenAIImagesAPI (H := Sample.platform) (H0 := Sample_reader)
     (H1 := Sample_directories) "/home/user/image-cache" (Some "/cache")
     Sample_blocked).1
  = Throw "EEXIST".
Proof. reflexivity. Qed.
